(** * unicon: the unit table and the conversion engine of [unicon.c]

    A shallow embedding of [unit_table], [convertUnit], [matchArgument] and
    of the conversion step of [main], followed by [isNumeric], the display
    functions and the whole of [main].

    C's [double] is kept abstract behind the class [Double], so that every
    definition below is written once, as the source has it, and can be read
    under several interpretations:
    - [ieee]: IEEE-754 binary64 with round-to-nearest-even, as the program
              runs (primitive floats);
    - [exact]: the real numbers, the idealised arithmetic the word "real"
              of the specification refers to;
    - [rational]: the same exact arithmetic on the rational numbers, against
              which the binary64 results are measured.

    What rounding does to a conversion in binary64 is bounded from the
    specification of the primitive floats ([SpecFloat]), read over the
    rational numbers. *)

From Stdlib Require Import ZArith QArith Qreduction Qabs Qpower Qfield.
From Stdlib Require Import Reals Lra Lia.
From Stdlib Require Lqa.
From Stdlib Require Import Bool List String Ascii.
From Stdlib Require Import Floats Uint63.
Import ListNotations SpecFloat.

Set Implicit Arguments.
#[local] Set Warnings "-inexact-float".

Close Scope Q_scope.
Close Scope R_scope.
Open Scope string_scope.
Open Scope Z_scope.

(** ** Arithmetic on [double] *)

Class Double (D : Type) : Type := {
  dlit : Q -> D;           (* a decimal or integer literal of the source *)
  dadd : D -> D -> D;
  dsub : D -> D -> D;
  dmul : D -> D -> D;
  ddiv : D -> D -> D
}.
Arguments dlit {D _} _%_Q.

Declare Scope double_scope.
Delimit Scope double_scope with D.
Infix "+" := dadd : double_scope.
Infix "-" := dsub : double_scope.
Infix "*" := dmul : double_scope.
Infix "/" := ddiv : double_scope.

(** A literal [n/d] is read as the binary64 value nearest to it: numerator
    and denominator of the reduced fraction are converted (exactly, for every
    literal of [unicon.c]) and divided with correct rounding. *)
Definition float_of_Q (q : Q) : float :=
  let r := Qred q in
  let n := PrimFloat.of_uint63 (Uint63.of_Z (Z.abs (Qnum r))) in
  let d := PrimFloat.of_uint63 (Uint63.of_Z (Zpos (Qden r))) in
  if Qnum r <? 0 then PrimFloat.opp (PrimFloat.div n d) else PrimFloat.div n d.

#[export] Instance ieee : Double float := {
  dlit := float_of_Q;
  dadd := PrimFloat.add;
  dsub := PrimFloat.sub;
  dmul := PrimFloat.mul;
  ddiv := PrimFloat.div
}.

#[export] Instance exact : Double R := {
  dlit := Q2R;
  dadd := Rplus;
  dsub := Rminus;
  dmul := Rmult;
  ddiv := Rdiv
}.

(** The same exact arithmetic on the rational numbers, which hold every
    literal of the source and can be computed with. *)
#[export] Instance rational : Double Q := {
  dlit := fun q => q;
  dadd := Qplus;
  dsub := Qminus;
  dmul := Qmult;
  ddiv := Qdiv
}.

(** ** Data model *)

(* typedef enum { TEMPERATURE, LENGTH, TIME, MASS, DIGITAL } UnitType; *)
Inductive UnitType : Set := TEMPERATURE | LENGTH | TIME | MASS | DIGITAL.

Definition UnitType_val (t : UnitType) : Z :=
  match t with
  | TEMPERATURE => 0 | LENGTH => 1 | TIME => 2 | MASS => 3 | DIGITAL => 4
  end.

(* typedef enum { CELSIUS, ..., EXABYTES } Unit; *)
Inductive Unit : Set :=
  | CELSIUS | FAHRENHEIT | KELVIN
  | METERS | CENTIMETERS | DECIMETERS | DECAMETERS | HECTOMETERS
  | KILOMETERS | MILLIMETERS | MILE | INCHES | FEET
  | SECONDS | MILLISECONDS | MINUTES | HOURS | DAYS | MONTHS | YEARS
  | GRAMS | CENTIGRAMS | DECIGRAMS | DECAGRAMS | HECTOGRAMS | MILLIGRAMS
  | KILOGRAMS | POUNDS | OUNCES
  | BYTES | KILOBYTES | MEGABYTES | GIGABYTES | TERABYTES | PETABYTES
  | EXABYTES.

(** The integer value C gives each enumerator (declaration order, from 0). *)
Definition Unit_val (u : Unit) : Z :=
  match u with
  | CELSIUS => 0 | FAHRENHEIT => 1 | KELVIN => 2
  | METERS => 3 | CENTIMETERS => 4 | DECIMETERS => 5 | DECAMETERS => 6
  | HECTOMETERS => 7 | KILOMETERS => 8 | MILLIMETERS => 9 | MILE => 10
  | INCHES => 11 | FEET => 12
  | SECONDS => 13 | MILLISECONDS => 14 | MINUTES => 15 | HOURS => 16
  | DAYS => 17 | MONTHS => 18 | YEARS => 19
  | GRAMS => 20 | CENTIGRAMS => 21 | DECIGRAMS => 22 | DECAGRAMS => 23
  | HECTOGRAMS => 24 | MILLIGRAMS => 25 | KILOGRAMS => 26 | POUNDS => 27
  | OUNCES => 28
  | BYTES => 29 | KILOBYTES => 30 | MEGABYTES => 31 | GIGABYTES => 32
  | TERABYTES => 33 | PETABYTES => 34 | EXABYTES => 35
  end.

(* typedef struct _UnitTable { ... } UnitTable; *)
Record UnitTable (D : Type) : Type := row {
  type : UnitType;
  unit : Unit;
  name : string;
  conversion_factor : D
}.

(** What a call leaves behind: a returned value, the process ended by
    [exit] after printing [out], or a read outside [unit_table]. *)
Inductive outcome (A : Type) : Type :=
  | Return (a : A)
  | Exit (out : string) (status : Z)
  | OutOfBounds.
Arguments Exit {A} out status.
Arguments OutOfBounds {A}.

Definition bind {A B} (m : outcome A) (k : A -> outcome B) : outcome B :=
  match m with
  | Return a => k a
  | Exit out status => Exit out status
  | OutOfBounds => OutOfBounds
  end.

(** The one way [convertUnit] ends the process (lines 282-283). *)
Definition IncompatibleFamilies {A} : outcome A :=
  Exit "Cannot convert between different unit types.
" 1.

(** ** <ctype.h> and <strings.h> *)

Definition tolower (c : Z) : Z :=
  if (65 <=? c) && (c <=? 90) then c + 32 else c.

Definition char_val (c : ascii) : Z := Z.of_N (N_of_ascii c).

(** [strcasecmp]: the characters are lower-cased and compared pairwise, the
    end of a string reading as the terminating NUL; the first non-zero
    difference is returned, and 0 once a NUL was compared equal. *)
Fixpoint strcasecmp (s1 s2 : string) : Z :=
  match s1, s2 with
  | EmptyString, EmptyString => 0
  | EmptyString, String c2 _ => tolower 0 - tolower (char_val c2)
  | String c1 _, EmptyString => tolower (char_val c1) - tolower 0
  | String c1 r1, String c2 r2 =>
      let result := tolower (char_val c1) - tolower (char_val c2) in
      if result =? 0
      then if char_val c1 =? 0 then 0 else strcasecmp r1 r2
      else result
  end.

(** The characters a C function sees in a string: those before the first
    NUL. *)
Fixpoint c_str (s : string) : list Z :=
  match s with
  | EmptyString => []
  | String c r => if char_val c =? 0 then [] else char_val c :: c_str r
  end.

(** ** The program *)

Section Program.

Context {D : Type} {ops : Double D}.

(* UnitTable unit_table[] = { ... };  lines 64-106 *)
Definition unit_table : list (UnitTable D) := [
  (* Temperature units *)
  row TEMPERATURE CELSIUS "celsius" (dlit 0);
  row TEMPERATURE FAHRENHEIT "fahrenheit" (dlit 0);
  row TEMPERATURE KELVIN "kelvin" (dlit 0);
  (* Length units *)
  row LENGTH METERS "meters" (dlit 1.0);
  row LENGTH CENTIMETERS "centimeters" (dlit 100.0);
  row LENGTH DECIMETERS "decimeters" (dlit 10.0);
  row LENGTH DECAMETERS "decameters" (dlit 0.1);
  row LENGTH HECTOMETERS "hectometers" (dlit 0.01);
  row LENGTH KILOMETERS "kilometers" (dlit 0.001);
  row LENGTH MILLIMETERS "millimeters" (dlit 1000.0);
  row LENGTH MILE "miles" (dlit 0.000621371);
  row LENGTH INCHES "inches" (dlit 39.3701);
  row LENGTH FEET "feet" (dlit 3.28084);
  (* Time units *)
  row TIME SECONDS "seconds" (dlit 1.0);
  row TIME MILLISECONDS "milliseconds" (dlit 1000.0);
  row TIME MINUTES "minutes" (dlit 1.0 / dlit 60.0)%D;
  row TIME HOURS "hours" (dlit 1.0 / dlit 3600.0)%D;
  row TIME DAYS "days" (dlit 1.0 / dlit 86400.0)%D;
  row TIME MONTHS "months" (dlit 1.0 / dlit 2592000.0)%D;
  row TIME YEARS "years" (dlit 1.0 / dlit 31536000.0)%D;
  (* Mass units *)
  row MASS GRAMS "grams" (dlit 1.0);
  row MASS CENTIGRAMS "centigrams" (dlit 100.0);
  row MASS DECIGRAMS "decigrams" (dlit 10.0);
  row MASS DECAGRAMS "decagrams" (dlit 0.1);
  row MASS HECTOGRAMS "hectograms" (dlit 0.01);
  row MASS MILLIGRAMS "milligrams" (dlit 1000.0);
  row MASS KILOGRAMS "kilograms" (dlit 0.001);
  row MASS POUNDS "pounds" (dlit 0.00220462);
  row MASS OUNCES "ounces" (dlit 0.03527396);
  (* Digital storage units *)
  row DIGITAL BYTES "bytes" (dlit 1.0);
  row DIGITAL KILOBYTES "kilobytes" (dlit 1.0 / dlit 1024.0)%D;
  row DIGITAL MEGABYTES "megabytes" (dlit 1.0 / dlit 1048576.0)%D;
  row DIGITAL GIGABYTES "gigabytes" (dlit 1.0 / dlit 1073741824.0)%D;
  row DIGITAL TERABYTES "terabytes" (dlit 1.0 / dlit 1099511627776.0)%D;
  row DIGITAL PETABYTES "petabytes" (dlit 1.0 / dlit 1125899906842624.0)%D;
  row DIGITAL EXABYTES "exabytes" (dlit 1.0 / dlit 1152921504606846976.0)%D
].

(** [unit_table[u]]: the table indexed by the integer value of a [Unit]. *)
Definition table_at (u : Unit) : option (UnitTable D) :=
  nth_error unit_table (Z.to_nat (Unit_val u)).

(** The labels of the outer [switch (from)] of [convertUnit], last first.
    An inner [switch (to)] either returns or leaves through its [default:
    break;], and control then falls into the next label, as no [break]
    separates the outer cases. *)

(* default:  lines 280-286 *)
Definition at_default (value : D) (from to : Unit) : outcome D :=
  match table_at from, table_at to with
  | Some f, Some t =>
      if negb (UnitType_val (type f) =? UnitType_val (type t))
      then IncompatibleFamilies
      else
        let factor := (conversion_factor f / conversion_factor t)%D in
        Return (value * factor)%D
  | _, _ => OutOfBounds
  end.

(* case KELVIN:  lines 271-279 *)
Definition at_KELVIN (value : D) (from to : Unit) : outcome D :=
  match to with
  | CELSIUS => Return (value - dlit 273.15)%D
  | FAHRENHEIT => Return ((value - dlit 273.15) * dlit 9 / dlit 5 + dlit 32)%D
  | _ => at_default value from to
  end.

(* case FAHRENHEIT:  lines 262-270 *)
Definition at_FAHRENHEIT (value : D) (from to : Unit) : outcome D :=
  match to with
  | CELSIUS => Return ((value - dlit 32) * dlit 5 / dlit 9)%D
  | KELVIN => Return ((value - dlit 32) * dlit 5 / dlit 9 + dlit 273.15)%D
  | _ => at_KELVIN value from to
  end.

(* case CELSIUS:  lines 253-261 *)
Definition at_CELSIUS (value : D) (from to : Unit) : outcome D :=
  match to with
  | FAHRENHEIT => Return ((value * dlit 9 / dlit 5) + dlit 32)%D
  | KELVIN => Return (value + dlit 273.15)%D
  | _ => at_FAHRENHEIT value from to
  end.

(* double convertUnit(double value, Unit from, Unit to)  lines 246-288 *)
Definition convertUnit (value : D) (from to : Unit) : outcome D :=
  if Unit_val from =? Unit_val to then Return value
  else
    match from with
    | CELSIUS => at_CELSIUS value from to
    | FAHRENHEIT => at_FAHRENHEIT value from to
    | KELVIN => at_KELVIN value from to
    | _ => at_default value from to
    end.

(* Unit matchArgument(const char *arg)  lines 291-298; [None] is the -1
   returned when the loop runs off the table. *)
Fixpoint matchArgument_from (rows : list (UnitTable D)) (arg : string)
  : option Unit :=
  match rows with
  | [] => None
  | r :: rest =>
      if strcasecmp arg (name r) =? 0 then Some (unit r)
      else matchArgument_from rest arg
  end.

Definition matchArgument (arg : string) : option Unit :=
  matchArgument_from unit_table arg.

(* void displayHelp()  lines 301-309: the text it prints *)
Definition displayHelp : string :=
  "Usage: unicon [OPTIONS] VALUE from <UNIT> to <UNIT>
Convert between various units.

Options:
	-r, --round=PLACES   Round the result to the specified number of decimal places.
	-s, --show           Show the full table of supported units.
	-h, --help           Display this help message and exit.
	-v, --version        Display version information and exit.
".

(** [main], lines 189-211: both names are resolved, the pair is ordered by
    enumeration value, converted, and rounded when [-r] was given.
    [round_to n x] stands for [round(x * pow(10, n)) / pow(10, n)] of
    <math.h>. *)
Variable round_to : Z -> D -> D.

Definition main_convert (round_places : Z) (value : D)
    (fromArg toArg : string) : outcome D :=
  match matchArgument fromArg, matchArgument toArg with
  | Some from, Some to =>
      bind (if Unit_val from <? Unit_val to
            then convertUnit value from to
            else convertUnit value to from)
        (fun result =>
           Return (if round_places >=? 0 then round_to round_places result
                   else result))
  | _, _ =>
      Exit ("Invalid units provided. Please provide valid units.
" ++ displayHelp) 1
  end.

(** A decision procedure for pairwise distinct names, used to check the
    table once and for all. *)
Fixpoint distinct_names (rows : list (UnitTable D)) : bool :=
  match rows with
  | [] => true
  | r :: rest =>
      forallb (fun r' => negb (strcasecmp (name r) (name r') =? 0)) rest
      && distinct_names rest
  end.

(** A descriptor of the table that carries unit [u]. *)
Definition registered (u : Unit) (d : UnitTable D) : Prop :=
  In d unit_table /\ unit d = u.

End Program.

(** ** Vocabulary of the round-trip property *)

(** [actual] is within relative tolerance [tol] of [expected], computed in
    binary64: |actual - expected| <= tol * |expected|. *)
Definition within_tolerance (tol expected actual : float) : bool :=
  PrimFloat.leb (PrimFloat.abs (PrimFloat.sub actual expected))
                (PrimFloat.mul tol (PrimFloat.abs expected)).

(** The round trip through [B] and back, of a value given in [A]. *)
Definition round_trip {D : Type} {ops : Double D} (value : D) (A B : Unit)
  : outcome D :=
  bind (convertUnit value A B) (fun there => convertUnit there B A).

(** [q] under the sign bit [s]. *)
Definition signed (s : bool) (q : Q) : Q := if s then (- q)%Q else q.

(** The rational number a finite binary64 value denotes: mantissa times a
    power of two, with the sign. Infinities and NaN denote none. *)
Definition SF2Q (x : spec_float) : option Q :=
  match x with
  | S754_zero _ => Some 0%Q
  | S754_finite s m e => Some (signed s (inject_Z (Zpos m) * 2 ^ e)%Q)
  | _ => None
  end.

Definition Prim2Q (x : float) : option Q := SF2Q (Prim2SF x).

(** The same number in lowest terms, so that 3.0 denotes [3]. *)
Definition float_val (x : float) : option Q := option_map Qred (Prim2Q x).

(** The absolute part of the round-trip tolerance: what the additions of the
    temperature formulas may lose, and what underflow may lose under a scale
    ratio. *)
Definition round_trip_floor (t : UnitType) : Q :=
  match t with
  | TEMPERATURE => 1e-12%Q
  | _ => 1e-300%Q
  end.

(** What the error of a conversion is measured against: the input for the
    temperature formulas, whose result may be 0, the exact result for the
    scale ratios. *)
Definition accuracy_scale (t : UnitType) (v x : Q) : Q :=
  match t with
  | TEMPERATURE => Qabs v
  | _ => Qabs x
  end.

(** ** The command line *)

(* isdigit of <ctype.h>, C locale *)
Definition isdigit (c : Z) : bool := (48 <=? c) && (c <=? 57).

(* the [for] loop of isNumeric, lines 233-241, over the characters from
   index [i] on *)
Fixpoint isNumeric_loop (chars : list Z) (dotCount : Z) : bool :=
  match chars with
  | [] => true
  | c :: rest =>
      if negb (isdigit c) then
        if (c =? 46) && (dotCount =? 0)
        then isNumeric_loop rest (dotCount + 1)
        else false
      else isNumeric_loop rest dotCount
  end.

(* bool isNumeric(const char *str)  lines 223-243; 45 is '-', 43 is '+',
   46 is '.' *)
Definition isNumeric (str : string) : bool :=
  match c_str str with
  | [] => false
  | c0 :: rest =>
      isNumeric_loop (if (c0 =? 45) || (c0 =? 43) then rest else c0 :: rest) 0
  end.

(* void displayUnits()  lines 311-354: the strings it prints, one per
   [printf] *)
Definition displayUnits : list string := [
  "Supported units:
";
  "TEMPERATURE:
";
  "	- Celsius
";
  "	- Fahrenheit
";
  "	- Kelvin
";
  "LENGTH:
";
  "	- Millimeters
";
  "	- Centimeters
";
  "	- Decimeters
";
  "	- Meters
";
  "	- Decameters
";
  "	- Hectometers
";
  "	- Kilometers
";
  "	- Miles
";
  "	- Inches
";
  "	- Feet
";
  "TIME:
";
  "	- Milliseconds
";
  "	- Seconds
";
  "	- Minutes
";
  "	- Hours
";
  "	- Days
";
  "	- Months
";
  "	- Years
";
  "MASS:
";
  "	- Milligrams
";
  "	- Centigrams
";
  "	- Decigrams
";
  "	- Grams
";
  "	- Decagrams
";
  "	- Hectograms
";
  "	- Kilograms
";
  "	- Pounds
";
  "	- Ounces
";
  "DIGITAL STORAGE:
";
  "	- Bytes
";
  "	- Kilobytes
";
  "	- Megabytes
";
  "	- Gigabytes
";
  "	- Terabytes
";
  "	- Petabytes
";
  "	- Exabytes
"
].

(** Reading the listing back: the family a heading line announces, the
    unit name an entry line shows, and the entries of a listing, each with
    the family of the heading above it. *)
Definition heading_type (line : string) : option UnitType :=
  if String.eqb line "TEMPERATURE:
" then Some TEMPERATURE
  else if String.eqb line "LENGTH:
" then Some LENGTH
  else if String.eqb line "TIME:
" then Some TIME
  else if String.eqb line "MASS:
" then Some MASS
  else if String.eqb line "DIGITAL STORAGE:
" then Some DIGITAL
  else None.

Definition entry_name (line : string) : option string :=
  if prefix "	- " line
  then Some (substring 3 (String.length line - 4) line)
  else None.

Fixpoint listing (lines : list string) (heading : option UnitType)
  : list (option UnitType * string) :=
  match lines with
  | [] => []
  | line :: rest =>
      match heading_type line with
      | Some t => listing rest (Some t)
      | None =>
          match entry_name line with
          | Some n => (heading, n) :: listing rest heading
          | None => listing rest heading
          end
      end
  end.

(* void displayVersion()  lines 357-359, VERSION being 0.1 *)
Definition displayVersion : string :=
  "unicon v0.1
".

(** What a run writes: text on either stream, the result line
    ["%.*f %s = %.*f %s\n"] with its five arguments, or the line that
    [getopt_long] itself writes to stderr about an option it does not
    accept, whose wording is the C library's. *)
Inductive event (D : Type) : Type :=
  | Stdout (text : string)
  | Stderr (text : string)
  | GetoptMessage
  | ResultLine (decimal_places : Z) (value : D) (from_name : string)
               (result : D) (to_name : string).
Arguments Stdout {D} text.
Arguments Stderr {D} text.
Arguments GetoptMessage {D}.

(** How a run of the program ends: with what it wrote and its exit status,
    or in a read outside [argv] or [unit_table]. *)
Inductive ended (D : Type) : Type :=
  | Ended (events : list (event D)) (status : Z)
  | BadRead.
Arguments BadRead {D}.

Section Cli.

Context {D : Type} {ops : Double D}.

(** <stdlib.h> and <math.h>: [atof], [atoi], and [round_to n x] for
    [round(x * pow(10, n)) / pow(10, n)]. *)
Variable atof : string -> D.
Variable atoi : string -> Z.
Variable round_to : Z -> D -> D.

(** [argv[i]] *)
Definition argv_at (argv : list string) (i : Z) : option string :=
  if i <? 0 then None else nth_error argv (Z.to_nat i).

(** What [getopt_long] has written when it returns [opt]: [main] leaves
    [opterr] at 1, so the result '?' (63), the only one here besides 'r',
    'h', 'v', 's' and the final -1, comes after a message on stderr. *)
Definition getopt_long_writes (opt : Z) : list (event D) :=
  if opt =? 63 then [GetoptMessage] else [].

(** The option loop of [main], lines 136-154, run on the successive
    results of [getopt_long] (the option character and [optarg]) up to its
    final -1; 114, 104, 118, 115 are 'r', 'h', 'v', 's'. It ends the program
    or leaves [round_places]. *)
Fixpoint options_loop (options : list (Z * string)) (round_places : Z)
  : ended D + Z :=
  match options with
  | [] => inr round_places
  | (opt, optarg) :: more =>
      if opt =? 114 then options_loop more (atoi optarg)
      else if opt =? 104 then inl (Ended [Stdout displayHelp] 0)
      else if opt =? 118 then inl (Ended [Stdout displayVersion] 0)
      else if opt =? 115 then inl (Ended [Stdout (concat "" displayUnits)] 0)
      else inl (Ended (getopt_long_writes opt ++
                       [Stderr "Use '-h, --help' for help.
"])%list 1)
  end.

(** The keyword loop of [main], lines 174-180: [n] iterations from index
    [i]. *)
Fixpoint keyword_loop (argv : list string) (n : nat) (i fromPos toPos : Z)
  : option (Z * Z) :=
  match n with
  | O => Some (fromPos, toPos)
  | S n' =>
      match argv_at argv i with
      | None => None
      | Some arg =>
          if strcasecmp arg "from" =? 0
          then keyword_loop argv n' (i + 1) (i + 1) toPos
          else if strcasecmp arg "to" =? 0
          then keyword_loop argv n' (i + 1) fromPos (i + 1)
          else keyword_loop argv n' (i + 1) fromPos toPos
      end
  end.

(** [unit_table[u].name] for the result of [matchArgument], whose -1 would
    index before the table. *)
Definition table_name (u : option Unit) : option string :=
  match u with
  | Some u => option_map (@name D) (table_at u)
  | None => None
  end.

(** [main], lines 189-219: the two unit arguments are resolved, the value
    converted, and the result line printed. *)
Definition convert_and_print (round_places : Z) (value : D)
    (fromArg toArg : string) : ended D :=
  match main_convert round_to round_places value fromArg toArg with
  | Return result =>
      let decimal_places :=
        if round_places >=? 0 then round_places else 2 in
      match table_name (matchArgument (D:=D) fromArg),
            table_name (matchArgument (D:=D) toArg) with
      | Some from_name, Some to_name =>
          Ended [ResultLine decimal_places value from_name result to_name] 0
      | _, _ => BadRead
      end
  | Exit out status => Ended [Stdout out] status
  | OutOfBounds => BadRead
  end.

(** [main] from line 156 on, once the options are read: [argv] and [optind]
    are as [getopt_long] leaves them. *)
Definition convert_command (round_places : Z) (argv : list string)
    (optind : Z) : ended D :=
  let argc := Z.of_nat (List.length argv) in
  if negb (optind + 5 =? argc) then
    Ended [Stdout ("Invalid command format. Please provide the correct number of arguments.
" ++ displayHelp)] 1
  else
    match argv_at argv optind with
    | None => BadRead
    | Some arg0 =>
        if negb (isNumeric arg0) then
          Ended [Stdout "Invalid value provided. Please provide a valid numeric value.
"] 1
        else
          let value := atof arg0 in
          match keyword_loop argv (Z.to_nat (argc - 1 - (optind + 1)))
                  (optind + 1) (-1) (-1) with
          | None => BadRead
          | Some (fromPos, toPos) =>
              if (fromPos =? -1) || (toPos =? -1) then
                Ended [Stdout ("Invalid command format. Please provide both 'from' and 'to' units.
" ++ displayHelp)] 1
              else
                match argv_at argv fromPos, argv_at argv toPos with
                | Some fromArg, Some toArg =>
                    convert_and_print round_places value fromArg toArg
                | _, _ => BadRead
                end
          end
    end.

(* int main(int argc, char **argv)  lines 116-220 *)
Definition main (argv : list string) (options : list (Z * string))
    (optind : Z) : ended D :=
  if Z.of_nat (List.length argv) =? 1 then Ended [Stdout displayHelp] 0
  else
    match options_loop options (-1) with
    | inl e => e
    | inr round_places => convert_command round_places argv optind
    end.

End Cli.

(** ** Rounding to nearest in binary64: bookkeeping of the error analysis *)

Section RoundingVocabulary.

Local Open Scope Q_scope.

Definition b2q (b : bool) : Q := if b then 1 else 0.

(** [x], counted in units [P] of the last place kept so far, sits where the
    shift record says: at or above its mantissa, past the half unit when the
    round bit is set, with something left below when the sticky bit is. *)
Definition shr_inv (P : Q) (mrs : shr_record) (x : Q) : Prop :=
  (0 <= shr_m mrs)%Z /\
  exists t : Q,
    2 * x == (2 * inject_Z (shr_m mrs) + b2q (shr_r mrs)) * P + t /\
    0 <= t /\ t < P /\
    (shr_s mrs = false -> t == 0) /\ (shr_s mrs = true -> 0 < t).

(** Where [x] sits between [m] and [m + 1], as a [location] tells. *)
Definition inbetween (m : Z) (x : Q) (l : location) : Prop :=
  match l with
  | loc_Exact => x == inject_Z m
  | loc_Inexact Lt => inject_Z m < x /\ x < inject_Z m + (1 # 2)
  | loc_Inexact Eq => x == inject_Z m + (1 # 2)
  | loc_Inexact Gt => inject_Z m + (1 # 2) < x /\ x < inject_Z m + 1
  end.

Definition fexp64 (e : Z) : Z := fexp prec emax e.

(** [r] is a finite number within half a unit in the last place of [X]. *)
Definition rounds_to (r : spec_float) (X : Q) : Prop :=
  exists Z : Q,
    SF2Q r = Some Z /\
    Qabs (Z - X) <= 2 ^ (-53) * Qabs X + 2 ^ (-1075).

Definition unit_roundoff : Q := 1 # 9007199254740992.
Definition underflow_unit : Q := Eval vm_compute in Qred (2 ^ (-1075)).
Definition overflow_threshold : Q := Eval vm_compute in Qred (2 ^ 1023).

Definition rounded (r : option Q) (X : Q) : Prop :=
  exists Y : Q,
    r = Some Y /\
    Qabs (Y - X) <= unit_roundoff * Qabs X + underflow_unit.

(** One operation of a conversion formula: the running value combined with
    a constant. *)
Inductive cop : Type :=
  | MulC (c : float)
  | DivC (c : float)
  | AddC (c : float)
  | SubC (c : float).

Definition run_op (y : float) (o : cop) : float :=
  match o with
  | MulC c => PrimFloat.mul y c
  | DivC c => PrimFloat.div y c
  | AddC c => PrimFloat.add y c
  | SubC c => PrimFloat.sub y c
  end.

Definition run_ops (ops : list cop) (v : float) : float :=
  fold_left run_op ops v.

(** A computed value is followed as [slope * V + offset], [V] being the
    input, up to an error of at most
    [rel_err * |V| + abs_err + eta_count * 2^-1075]. *)
Record affine : Type := {
  slope : Q;
  offset : Q;
  rel_err : Q;
  abs_err : Q;
  eta_count : Q
}.

(** The operation without rounding, [y * k + c], and the factor [g = |k|]
    by which it scales an error. *)
Definition exact_op (o : cop) : option (Q * Q * Q) :=
  match o with
  | MulC c => option_map (fun C => (C, 0, Qabs C)) (Prim2Q c)
  | DivC c =>
      match Prim2Q c with
      | Some C => if Qeq_bool C 0 then None else Some (/ C, 0, Qabs (/ C))
      | None => None
      end
  | AddC c => option_map (fun C => (1, C, 1)) (Prim2Q c)
  | SubC c => option_map (fun C => (1, - C, 1)) (Prim2Q c)
  end.

(** One operation on the bounds; [None] when the coefficients of the
    exact result exceed [cap], which is chosen so that no such result
    reaches 2^1023. *)
Definition step (cap : Q) (a : affine) (o : cop) : option affine :=
  match exact_op o with
  | None => None
  | Some (k, c, g) =>
      let s' := Qred (slope a * k) in
      let o' := Qred (offset a * k + c) in
      let r' := Qred (rel_err a * g) in
      let a' := Qred (abs_err a * g) in
      let n' := Qred (eta_count a * g) in
      if Qle_bool (Qabs s' + r' + Qabs o' + a' + n') cap
      then Some {| slope := s'; offset := o';
                   rel_err := Qred (r' + unit_roundoff * (Qabs s' + r'));
                   abs_err := Qred (a' + unit_roundoff * (Qabs o' + a'));
                   eta_count := Qred (n' + unit_roundoff * n' + 1) |}
      else None
  end.

Fixpoint steps (cap : Q) (a : affine) (ops : list cop) : option affine :=
  match ops with
  | [] => Some a
  | o :: more =>
      match step cap a o with
      | Some a' => steps cap a' more
      | None => None
      end
  end.

Definition identity_map : affine :=
  {| slope := 1; offset := 0; rel_err := 0; abs_err := 0; eta_count := 0 |}.

(** The bounds show that the result of the operations on an input [V] is
    within [rel_tol * |V| + abs_tol + budget * 2^-1075] of
    [sx * V + ox]. *)
Definition accurate_within (cap rel_tol abs_tol budget : Q) (ops : list cop)
    (sx ox : Q) : bool :=
  match steps cap identity_map ops with
  | Some a =>
      Qle_bool (Qabs (slope a - sx) + rel_err a) rel_tol &&
      Qle_bool (Qabs (offset a - ox) + abs_err a) abs_tol &&
      Qle_bool (eta_count a) budget
  | None => false
  end.

(** The operations bring an input back to itself, within the same. *)
Definition returns_within (cap rel_tol abs_tol budget : Q) (ops : list cop)
  : bool :=
  accurate_within cap rel_tol abs_tol budget ops 1 0.

(** 2^62, for both: inputs up to 1e280 then stay below 2^1023, and the
    underflow errors below 1e-300. *)
Definition magnitude_cap : Q := 4611686018427387904.
Definition underflow_budget : Q := 4611686018427387904.

(** What an [affine] record says of a float [y] computed from an input of
    value [V]. *)
Definition tracks (a : affine) (V : Q) (y : float) : Prop :=
  exists Y : Q,
    Prim2Q y = Some Y /\
    Qabs (Y - (slope a * V + offset a)) <=
      rel_err a * Qabs V + abs_err a + eta_count a * underflow_unit.

Definition sound (a : affine) : Prop :=
  0 <= rel_err a /\ 0 <= abs_err a /\ 0 <= eta_count a.

(** The six temperature formulas of [convertUnit] as chains of operations,
    each with the slope and the offset of the exact formula. *)
Definition temperature_chains : list (Unit * Unit * list cop * Q * Q) :=
  [(CELSIUS, FAHRENHEIT,
    [MulC (dlit 9); DivC (dlit 5); AddC (dlit 32)], 9 / 5, 32);
   (CELSIUS, KELVIN, [AddC (dlit 273.15)], 1, 273.15);
   (FAHRENHEIT, CELSIUS,
    [SubC (dlit 32); MulC (dlit 5); DivC (dlit 9)], 5 / 9, - (160 / 9));
   (FAHRENHEIT, KELVIN,
    [SubC (dlit 32); MulC (dlit 5); DivC (dlit 9); AddC (dlit 273.15)],
    5 / 9, 273.15 - 160 / 9);
   (KELVIN, CELSIUS, [SubC (dlit 273.15)], 1, - 273.15);
   (KELVIN, FAHRENHEIT,
    [SubC (dlit 273.15); MulC (dlit 9); DivC (dlit 5); AddC (dlit 32)],
    9 / 5, 32 - 273.15 * 9 / 5)].

End RoundingVocabulary.

(** ** Properties *)

Lemma Unit_val_inj (a b : Unit) : Unit_val a = Unit_val b -> a = b.
Proof. destruct a, b; simpl; intros E; try reflexivity; discriminate E. Qed.

Lemma UnitType_val_inj (a b : UnitType) :
  UnitType_val a = UnitType_val b -> a = b.
Proof. destruct a, b; simpl; intros E; try reflexivity; discriminate E. Qed.

Section Table.

Context {D : Type} {ops : Double D}.

Lemma unit_table_length : List.length (unit_table (D:=D)) = 36%nat.
Proof. reflexivity. Qed.

(** Every row sits at the position its [unit] field names. *)
Lemma nth_error_unit (i : nat) (d : UnitTable D) :
  nth_error unit_table i = Some d -> Unit_val (unit d) = Z.of_nat i.
Proof.
  unfold unit_table.
  do 36 (destruct i as [|i]; [intros [= <-]; reflexivity|]).
  destruct i; discriminate.
Qed.

Lemma table_at_total (u : Unit) :
  exists d, table_at (D:=D) u = Some d /\ unit d = u.
Proof. destruct u; eexists; split; reflexivity. Qed.

Lemma registered_table_at (u : Unit) (d : UnitTable D) :
  registered u d -> table_at u = Some d.
Proof.
  intros [Hin <-]. apply In_nth_error in Hin as [i Hi].
  unfold table_at. rewrite (nth_error_unit _ Hi), Nat2Z.id. exact Hi.
Qed.

Lemma table_at_registered (u : Unit) (d : UnitTable D) :
  table_at u = Some d -> registered u d.
Proof.
  intros H. split.
  - exact (nth_error_In _ _ H).
  - destruct (table_at_total u) as [d' [H' E]]. congruence.
Qed.

(** The temperature units are exactly the first three enumerators. *)
Lemma temperature_units (u : Unit) (d : UnitTable D) :
  table_at u = Some d ->
  type d = TEMPERATURE <-> u = CELSIUS \/ u = FAHRENHEIT \/ u = KELVIN.
Proof.
  destruct u; intros [= <-]; simpl; split; intros H; auto;
    try discriminate H; decompose [or] H; discriminate.
Qed.

End Table.

Section Engine.

Context {D : Type} {ops : Double D}.

Lemma Unit_val_eqb_false (a b : Unit) :
  a <> b -> (Unit_val a =? Unit_val b) = false.
Proof.
  intros N. apply Z.eqb_neq. intros E. exact (N (Unit_val_inj _ _ E)).
Qed.

(** What the [default:] label computes. *)
Lemma at_default_spec (value : D) (from to : Unit) (f t : UnitTable D) :
  table_at from = Some f -> table_at to = Some t ->
  at_default value from to =
    if negb (UnitType_val (type f) =? UnitType_val (type t))
    then IncompatibleFamilies
    else Return (value * (conversion_factor f / conversion_factor t))%D.
Proof. intros Hf Ht. unfold at_default. now rewrite Hf, Ht. Qed.

(** A source unit outside the temperature family goes straight to
    [default:]. *)
Lemma convertUnit_not_temperature (value : D) (from to : Unit)
    (f : UnitTable D) :
  table_at from = Some f -> type f <> TEMPERATURE -> from <> to ->
  convertUnit value from to = at_default value from to.
Proof.
  intros Hf Ht Hne. unfold convertUnit.
  rewrite (Unit_val_eqb_false Hne).
  destruct from; try reflexivity;
    injection Hf as <-; now elim Ht.
Qed.

(** So does a temperature source unit whose target is of another family:
    every inner [switch] leaves through its [default: break;]. *)
Lemma convertUnit_falls_through (value : D) (from to : Unit)
    (f t : UnitTable D) :
  table_at from = Some f -> table_at to = Some t ->
  type f = TEMPERATURE -> type t <> TEMPERATURE ->
  convertUnit value from to = at_default value from to.
Proof.
  intros Hf Ht Tf Tt.
  apply (temperature_units _ Hf) in Tf.
  assert (Nt : ~ (to = CELSIUS \/ to = FAHRENHEIT \/ to = KELVIN))
    by (intros H; apply Tt; now apply (temperature_units _ Ht)).
  destruct Tf as [-> | [-> | ->]];
    destruct to; try reflexivity; elim Nt; auto.
Qed.

(** Every call either returns a value or reaches [default:]. *)
Lemma convertUnit_cases (value : D) (from to : Unit) :
  (exists x, convertUnit value from to = Return x) \/
  (from <> to /\ convertUnit value from to = at_default value from to).
Proof.
  unfold convertUnit.
  destruct (Z.eqb_spec (Unit_val from) (Unit_val to)) as [E | N].
  - left. eauto.
  - assert (from <> to) by congruence.
    destruct from; try (right; split; [assumption | reflexivity]);
      destruct to; simpl; eauto.
Qed.

(** The [from == to] test comes first. *)
Lemma convertUnit_same_unit (value : D) (U : Unit) :
  convertUnit value U U = Return value.
Proof. unfold convertUnit. now rewrite Z.eqb_refl. Qed.

(** The ratio computed at [default:] for two rows of one family. *)
Lemma convertUnit_default_ratio (value : D) (from to : Unit)
    (f t : UnitTable D) :
  table_at from = Some f -> table_at to = Some t ->
  from <> to -> type f = type t -> type f <> TEMPERATURE ->
  convertUnit value from to =
    Return (value * (conversion_factor f / conversion_factor t))%D.
Proof.
  intros Hf Ht Hne Hty Hnt.
  rewrite (convertUnit_not_temperature value Hf Hnt Hne).
  rewrite (at_default_spec value _ _ Hf Ht), Hty, Z.eqb_refl. reflexivity.
Qed.

(** C5: [convertUnit value U U] returns [value] itself for every unit [U],
    temperature units included, and ends in no error. *)
Theorem convertUnit_identity (value : D) (U : Unit) :
  convertUnit value U U = Return value.
Proof. apply convertUnit_same_unit. Qed.

(** C1: for two distinct units registered in [unit_table] with the same
    family, other than TEMPERATURE, [convertUnit] returns
    [value * (conversion_factor(from) / conversion_factor(to))], the factors
    being those of the two table rows. *)
Theorem convertUnit_ratio (value : D) (from to : Unit) (f t : UnitTable D) :
  registered from f -> registered to t ->
  from <> to -> type f = type t -> type f <> TEMPERATURE ->
  convertUnit value from to =
    Return (value * (conversion_factor f / conversion_factor t))%D.
Proof.
  intros Rf Rt. apply convertUnit_default_ratio;
    now apply registered_table_at.
Qed.

(** Units of one family never end the process. *)
Lemma convertUnit_same_family (value : D) (from to : Unit)
    (f t : UnitTable D) :
  registered from f -> registered to t -> type f = type t ->
  exists x, convertUnit value from to = Return x.
Proof.
  intros Rf Rt Hty. apply registered_table_at in Rf, Rt.
  destruct (convertUnit_cases value from to) as [Hx | [_ ->]]; [exact Hx|].
  rewrite (at_default_spec value _ _ Rf Rt), Hty, Z.eqb_refl. simpl. eauto.
Qed.

(** C3: when the families of the two registered units differ, [convertUnit]
    ends with the incompatible-families exit, also when exactly one of the
    two is a temperature unit; that exit is the only way the function fails:
    any exit is this one and is caused by differing families, and the table
    is never read out of bounds. *)
Theorem convertUnit_incompatible (value : D) (from to : Unit) :
  (forall f t, registered from f -> registered to t -> type f <> type t ->
     convertUnit value from to = IncompatibleFamilies) /\
  (forall out status, convertUnit value from to = Exit out status ->
     Exit out status = IncompatibleFamilies (A:=D) /\
     exists f t, registered from f /\ registered to t /\ type f <> type t) /\
  convertUnit value from to <> OutOfBounds.
Proof.
  destruct (table_at_total (D:=D) from) as [f0 [Hf0 _]].
  destruct (table_at_total (D:=D) to) as [t0 [Ht0 _]].
  pose proof (at_default_spec value _ _ Hf0 Ht0) as Hd.
  split; [|split].
  - intros f t Rf Rt Hty. apply registered_table_at in Rf, Rt.
    assert (f0 = f) by congruence. assert (t0 = t) by congruence. subst.
    assert (Hne : from <> to) by (intros ->; apply Hty; congruence).
    assert (Hgo : convertUnit value from to = at_default value from to).
    { destruct (UnitType_val (type f) =? 0) eqn:E.
      - apply Z.eqb_eq in E. apply (UnitType_val_inj _ TEMPERATURE) in E.
        apply convertUnit_falls_through with (f := f) (t := t);
          try assumption; congruence.
      - apply convertUnit_not_temperature with (f := f);
          try assumption.
        intros T. rewrite T in E. discriminate E. }
    rewrite Hgo, Hd.
    destruct (Z.eqb_spec (UnitType_val (type f)) (UnitType_val (type t)))
      as [E | _]; [|reflexivity].
    elim Hty. exact (UnitType_val_inj _ _ E).
  - intros out status Hex.
    destruct (convertUnit_cases value from to) as [[x Hx] | [_ Hgo]];
      [congruence|].
    rewrite Hgo, Hd in Hex.
    destruct (Z.eqb_spec (UnitType_val (type f0)) (UnitType_val (type t0)))
      as [_ | N]; simpl in Hex; [discriminate Hex|].
    split; [now symmetry|].
    exists f0, t0.
    split; [now apply table_at_registered|].
    split; [now apply table_at_registered|].
    intros E. apply N. now rewrite E.
  - destruct (convertUnit_cases value from to) as [[x Hx] | [_ Hgo]];
      [congruence|].
    rewrite Hgo, Hd.
    now destruct (negb (UnitType_val (type f0) =? UnitType_val (type t0))).
Qed.

(** The six temperature formulas, under any reading of [double]. *)
Lemma temperature_formulas (value : D) :
  convertUnit value CELSIUS FAHRENHEIT =
    Return ((value * dlit 9 / dlit 5) + dlit 32)%D /\
  convertUnit value CELSIUS KELVIN = Return (value + dlit 273.15)%D /\
  convertUnit value FAHRENHEIT CELSIUS =
    Return ((value - dlit 32) * dlit 5 / dlit 9)%D /\
  convertUnit value FAHRENHEIT KELVIN =
    Return ((value - dlit 32) * dlit 5 / dlit 9 + dlit 273.15)%D /\
  convertUnit value KELVIN CELSIUS = Return (value - dlit 273.15)%D /\
  convertUnit value KELVIN FAHRENHEIT =
    Return ((value - dlit 273.15) * dlit 9 / dlit 5 + dlit 32)%D.
Proof. repeat split. Qed.

(** Both legs of a round trip inside one family return. *)
Lemma round_trip_returns (value : D) (A B : Unit) (a b : UnitTable D) :
  registered A a -> registered B b -> type a = type b ->
  exists x y,
    convertUnit value A B = Return x /\ convertUnit x B A = Return y.
Proof.
  intros Ra Rb Hty.
  destruct (convertUnit_same_family value Ra Rb Hty) as [x Hx].
  destruct (convertUnit_same_family x Rb Ra (eq_sym Hty)) as [y Hy].
  eauto.
Qed.

Section Main.

Variable round_to : Z -> D -> D.

(** C10: [main] passes the unit of smaller enumeration value as the source
    whatever the order on the command line, so that "value from A to B" and
    "value from B to A" yield the same result. *)
Theorem main_convert_direction (round_places : Z) (value : D)
    (fromArg toArg : string) (A B : Unit) :
  matchArgument (D:=D) fromArg = Some A ->
  matchArgument (D:=D) toArg = Some B ->
  let lo := if Unit_val A <? Unit_val B then A else B in
  let hi := if Unit_val A <? Unit_val B then B else A in
  Unit_val lo <= Unit_val hi /\
  main_convert round_to round_places value fromArg toArg =
    bind (convertUnit value lo hi)
      (fun result =>
         Return (if round_places >=? 0 then round_to round_places result
                 else result)) /\
  main_convert round_to round_places value fromArg toArg =
    main_convert round_to round_places value toArg fromArg.
Proof.
  intros HA HB lo hi. subst lo hi. unfold main_convert. rewrite HA, HB.
  destruct (Z.ltb_spec (Unit_val A) (Unit_val B)) as [L | G];
    destruct (Z.ltb_spec (Unit_val B) (Unit_val A)) as [L' | G'];
    try lia; repeat split; try lia.
  assert (A = B) by (apply Unit_val_inj; lia). now subst.
Qed.

End Main.

End Engine.

(** ** Name lookup *)

Lemma tolower_eq_0 (c : Z) : tolower c = 0 <-> c = 0.
Proof.
  unfold tolower.
  destruct (Z.leb_spec 65 c), (Z.leb_spec c 90); simpl; lia.
Qed.

(** [strcasecmp] returns 0 exactly when the two strings agree character by
    character once upper-case letters are lowered. *)
Lemma strcasecmp_eq_0 (s1 s2 : string) :
  strcasecmp s1 s2 = 0 <->
  map tolower (c_str s1) = map tolower (c_str s2).
Proof.
  revert s2. induction s1 as [|c1 r1 IH]; intros [|c2 r2]; simpl.
  - tauto.
  - pose proof (tolower_eq_0 (char_val c2)) as T. change (tolower 0) with 0.
    destruct (Z.eqb_spec (char_val c2) 0); simpl; split;
      intros H; try reflexivity; try discriminate H; lia.
  - pose proof (tolower_eq_0 (char_val c1)) as T. change (tolower 0) with 0.
    destruct (Z.eqb_spec (char_val c1) 0); simpl; split;
      intros H; try reflexivity; try discriminate H; lia.
  - pose proof (tolower_eq_0 (char_val c1)) as T1.
    pose proof (tolower_eq_0 (char_val c2)) as T2.
    destruct (Z.eqb_spec (tolower (char_val c1) - tolower (char_val c2)) 0)
      as [E | N];
      destruct (Z.eqb_spec (char_val c1) 0) as [Z1 | Z1];
      destruct (Z.eqb_spec (char_val c2) 0) as [Z2 | Z2]; simpl;
      try (exfalso; lia).
    + tauto.
    + rewrite IH. split; intros H.
      * f_equal; [lia | exact H].
      * now injection H.
    + split; [lia | intros H; discriminate H].
    + split; [lia | intros H; discriminate H].
    + split; [lia | intros H; injection H; lia].
Qed.

Lemma strcasecmp_sym_0 (s1 s2 : string) :
  strcasecmp s1 s2 = 0 -> strcasecmp s2 s1 = 0.
Proof. rewrite !strcasecmp_eq_0. now intros ->. Qed.

Section Registry.

Context {D : Type} {ops : Double D}.

(** The loop returns the [unit] of the first row whose name compares equal. *)
Lemma matchArgument_from_Some (rows : list (UnitTable D)) (arg : string)
    (u : Unit) :
  matchArgument_from rows arg = Some u <->
  exists i d,
    nth_error rows i = Some d /\ strcasecmp arg (name d) = 0 /\ unit d = u /\
    forall j d', (j < i)%nat -> nth_error rows j = Some d' ->
                 strcasecmp arg (name d') <> 0.
Proof.
  induction rows as [|r rest IH]; simpl.
  - split; [discriminate|]. intros [[|i] [d [H _]]]; discriminate H.
  - destruct (Z.eqb_spec (strcasecmp arg (name r)) 0) as [E | N].
    + split.
      * intros [= <-]. exists 0%nat, r. repeat split; trivial.
        intros j d' Hj. lia.
      * intros [[|i] [d [Hd [Hz [Hu Hfirst]]]]].
        -- injection Hd as <-. now rewrite Hu.
        -- elim (Hfirst 0%nat r); [lia | reflexivity | exact E].
    + rewrite IH. split.
      * intros [i [d [Hd [Hz [Hu Hfirst]]]]].
        exists (S i), d. repeat split; trivial.
        intros [|j] d' Hj Hd'.
        -- injection Hd' as <-. exact N.
        -- apply (Hfirst j); [lia | exact Hd'].
      * intros [[|i] [d [Hd [Hz [Hu Hfirst]]]]].
        -- injection Hd as <-. contradiction.
        -- exists i, d. repeat split; trivial.
           intros j d' Hj Hd'. apply (Hfirst (S j)); [lia | exact Hd'].
Qed.

Lemma matchArgument_from_None (rows : list (UnitTable D)) (arg : string) :
  matchArgument_from rows arg = None <->
  forall d, In d rows -> strcasecmp arg (name d) <> 0.
Proof.
  induction rows as [|r rest IH]; simpl.
  - split; [intros _ d []| reflexivity].
  - destruct (Z.eqb_spec (strcasecmp arg (name r)) 0) as [E | N].
    + split; [discriminate|]. intros H. elim (H r); auto.
    + rewrite IH. split.
      * intros H d [<- | Hd]; auto.
      * intros H d Hd. apply H. now right.
Qed.

Lemma distinct_names_lt (rows : list (UnitTable D)) :
  distinct_names rows = true ->
  forall i j di dj, (i < j)%nat ->
    nth_error rows i = Some di -> nth_error rows j = Some dj ->
    strcasecmp (name di) (name dj) <> 0.
Proof.
  induction rows as [|r rest IH]; simpl; intros Hd i j di dj Hlt Hi Hj.
  - destruct i; discriminate Hi.
  - apply andb_true_iff in Hd as [Hhead Hrest].
    destruct j as [|j]; [lia|]. destruct i as [|i]; simpl in Hi, Hj.
    + injection Hi as <-.
      rewrite forallb_forall in Hhead.
      specialize (Hhead dj (nth_error_In _ _ Hj)).
      apply negb_true_iff, Z.eqb_neq in Hhead. exact Hhead.
    + apply (IH Hrest i j); trivial. lia.
Qed.

Lemma unit_table_distinct_names : distinct_names unit_table = true.
Proof. vm_compute. reflexivity. Qed.

(** C7: [matchArgument] compares the argument with each row's name by
    [strcasecmp], which is 0 exactly for strings equal up to letter case,
    and returns the unit of the first row that matches; it returns nothing
    exactly when no row matches. "KELVIN", "kelvin" and "Kelvin" all resolve
    to KELVIN and "parsecs" is not found. *)
Theorem matchArgument_spec :
  (forall s1 s2,
     strcasecmp s1 s2 = 0 <->
     map tolower (c_str s1) = map tolower (c_str s2)) /\
  (forall arg u,
     matchArgument (D:=D) arg = Some u <->
     exists i d,
       nth_error unit_table i = Some d /\
       strcasecmp arg (name d) = 0 /\ unit d = u /\
       forall j d', (j < i)%nat -> nth_error unit_table j = Some d' ->
                    strcasecmp arg (name d') <> 0) /\
  (forall arg,
     matchArgument (D:=D) arg = None <->
     forall d, In d (unit_table (D:=D)) -> strcasecmp arg (name d) <> 0) /\
  matchArgument (D:=D) "KELVIN" = Some KELVIN /\
  matchArgument (D:=D) "kelvin" = Some KELVIN /\
  matchArgument (D:=D) "Kelvin" = Some KELVIN /\
  matchArgument (D:=D) "parsecs" = None.
Proof.
  split; [exact strcasecmp_eq_0|].
  split; [intros arg u; apply matchArgument_from_Some|].
  split; [intros arg; apply matchArgument_from_None|].
  repeat split; vm_compute; reflexivity.
Qed.

(** C8: the names of two different rows of [unit_table] never compare equal
    under [strcasecmp], whatever their families; hence rows whose names
    compare equal are one and the same row, and looking up the name of a row
    returns the unit of that very row. *)
Theorem unit_table_names_unique :
  (forall i j (di dj : UnitTable D),
     nth_error unit_table i = Some di -> nth_error unit_table j = Some dj ->
     i <> j -> strcasecmp (name di) (name dj) <> 0) /\
  (forall d d' : UnitTable D,
     In d unit_table -> In d' unit_table ->
     strcasecmp (name d) (name d') = 0 -> d = d') /\
  (forall d : UnitTable D,
     In d unit_table -> matchArgument (D:=D) (name d) = Some (unit d)).
Proof.
  assert (U : forall i j (di dj : UnitTable D),
             nth_error unit_table i = Some di ->
             nth_error unit_table j = Some dj ->
             i <> j -> strcasecmp (name di) (name dj) <> 0).
  { intros i j di dj Hi Hj Hne.
    destruct (Nat.lt_total i j) as [L | [E | G]]; [|contradiction|].
    - exact (distinct_names_lt _ unit_table_distinct_names L Hi Hj).
    - intros Hz. apply strcasecmp_sym_0 in Hz. revert Hz.
      exact (distinct_names_lt _ unit_table_distinct_names G Hj Hi). }
  split; [exact U|]. split.
  - intros d d' Hd Hd' Hz.
    apply In_nth_error in Hd as [i Hi]. apply In_nth_error in Hd' as [j Hj].
    destruct (Nat.eq_dec i j) as [-> | Hne]; [congruence|].
    elim (U i j d d' Hi Hj Hne Hz).
  - intros d Hd. apply In_nth_error in Hd as [i Hi].
    apply matchArgument_from_Some. exists i, d.
    assert (R : strcasecmp (name d) (name d) = 0)
      by now apply strcasecmp_eq_0.
    repeat split; trivial.
    intros k d' Hk Hd'. apply (U i k d d' Hi Hd'). lia.
Qed.

(** C9: the row at index [i] of [unit_table] carries the unit whose
    enumeration value is [i]; hence indexing the table by a unit, as
    [convertUnit] and the result line of [main] do, stays inside the table
    and yields the row registered for that unit, and no other. *)
Theorem unit_table_indexed_by_unit :
  (forall i d,
     nth_error (unit_table (D:=D)) i = Some d ->
     Unit_val (unit d) = Z.of_nat i) /\
  (forall u, exists d, table_at (D:=D) u = Some d /\ unit d = u) /\
  (forall u (d : UnitTable D), registered u d <-> table_at u = Some d).
Proof.
  split; [exact (@nth_error_unit D ops)|].
  split; [exact (@table_at_total D ops)|].
  intros u d. split.
  - apply registered_table_at.
  - apply table_at_registered.
Qed.

End Registry.

(** ** The two readings of [double] *)

(** Under [ieee] every literal of the source denotes the binary64 value the
    compiler gives it. *)
Example literals_binary64 :
  map float_of_Q
    [0.1; 0.01; 0.001; 0.000621371; 39.3701; 3.28084; 0.00220462;
     0.03527396; 273.15; 1152921504606846976.0]%Q =
  [0.1; 0.01; 0.001; 0.000621371; 39.3701; 3.28084; 0.00220462;
   0.03527396; 273.15; 1152921504606846976.0]%float.
Proof. vm_compute. reflexivity. Qed.

(** C2: [convertUnit(1, KILOMETERS, METERS)] evaluates to
    [1 * (0.001 / 1.0)], that is 0.001 and not 1000, in binary64 as over the
    reals. *)
Theorem convertUnit_kilometers_meters :
  convertUnit 1%float KILOMETERS METERS = Return 0.001%float /\
  convertUnit 1%R KILOMETERS METERS = Return (1 / 1000)%R.
Proof.
  split.
  - vm_compute. reflexivity.
  - cbv [convertUnit Unit_val Z.eqb at_default table_at]. simpl.
    f_equal. unfold Q2R; simpl. lra.
Qed.

(** The same ratio on two more inputs: 1024 bytes in kilobytes and 60
    minutes in seconds. *)
Example convertUnit_bytes_minutes :
  convertUnit 1024%float BYTES KILOBYTES = Return 1048576%float /\
  convertUnit 60%float MINUTES SECONDS = Return 1%float.
Proof. split; vm_compute; reflexivity. Qed.

(** C4: for each ordered pair of distinct temperature units [convertUnit]
    returns the formula written for that pair, evaluated left to right as C
    does; 0 Celsius is 32 Fahrenheit and 100 Celsius is 373.15 Kelvin, in
    binary64 as over the reals. *)
Theorem temperature_conversions :
  (forall (D : Type) (ops : Double D) (value : D),
     convertUnit value CELSIUS FAHRENHEIT =
       Return (value * dlit 9 / dlit 5 + dlit 32)%D /\
     convertUnit value CELSIUS KELVIN = Return (value + dlit 273.15)%D /\
     convertUnit value FAHRENHEIT CELSIUS =
       Return ((value - dlit 32) * dlit 5 / dlit 9)%D /\
     convertUnit value FAHRENHEIT KELVIN =
       Return ((value - dlit 32) * dlit 5 / dlit 9 + dlit 273.15)%D /\
     convertUnit value KELVIN CELSIUS = Return (value - dlit 273.15)%D /\
     convertUnit value KELVIN FAHRENHEIT =
       Return ((value - dlit 273.15) * dlit 9 / dlit 5 + dlit 32)%D) /\
  convertUnit 0%float CELSIUS FAHRENHEIT = Return 32%float /\
  convertUnit 100%float CELSIUS KELVIN = Return 373.15%float /\
  convertUnit 0%R CELSIUS FAHRENHEIT = Return 32%R /\
  convertUnit 100%R CELSIUS KELVIN = Return 373.15%R.
Proof.
  split; [intros D ops value; apply temperature_formulas|].
  split; [vm_compute; reflexivity|].
  split; [vm_compute; reflexivity|].
  split.
  - rewrite (proj1 (temperature_formulas 0%R)).
    f_equal. simpl. unfold Q2R; simpl. lra.
  - rewrite (proj1 (proj2 (temperature_formulas 100%R))).
    f_equal. simpl. unfold Q2R; simpl. lra.
Qed.

(** ** Rounding in binary64

    [binary_round_aux], to which every operation of [SpecFloat] comes down,
    returns a number within half a unit in the last place of the exact
    result; the four operations inherit it, and so does a chain of them. *)

Unset Implicit Arguments.

Section Rounding.

Local Open Scope Q_scope.

(** *** Shifting a mantissa right *)

Lemma inject_Z_xI (p : positive) :
  inject_Z (Zpos p~1) == 2 * inject_Z (Zpos p) + 1.
Proof. rewrite Pos2Z.inj_xI, inject_Z_plus, inject_Z_mult. reflexivity. Qed.

Lemma inject_Z_xO (p : positive) :
  inject_Z (Zpos p~0) == 2 * inject_Z (Zpos p).
Proof. rewrite Pos2Z.inj_xO, inject_Z_mult. reflexivity. Qed.

Lemma shr_1_inv (P : Q) (mrs : shr_record) (x : Q) :
  0 < P -> shr_inv P mrs x -> shr_inv (2 * P) (shr_1 mrs) x.
Proof.
  intros HP [Hm (t & Ht & Ht0 & HtP & Hs0 & Hs1)].
  destruct mrs as [m r s]. simpl in *.
  assert (Hb : 0 <= b2q r /\ b2q r <= 1) by (destruct r; simpl; Lqa.lra).
  assert (Hs : (r || s = false -> b2q r * P + t == 0) /\
               (r || s = true -> 0 < b2q r * P + t)).
  { destruct r, s; simpl; split; intros E; try discriminate E;
      try (specialize (Hs0 eq_refl)); try (specialize (Hs1 eq_refl));
      Lqa.lra. }
  destruct m as [|[p|p|]|p]; try (exfalso; lia); unfold shr_inv; simpl;
    (split; [lia|]); exists (b2q r * P + t);
    rewrite ?inject_Z_xI, ?inject_Z_xO in Ht;
    change (inject_Z 0) with 0 in *; change (inject_Z 1) with 1 in *;
    (split; [Lqa.nra|]); (split; [Lqa.nra|]); (split; [Lqa.nra|]);
    exact Hs.
Qed.

Lemma shr_inv_ext (P P' : Q) (mrs : shr_record) (x : Q) :
  P == P' -> shr_inv P mrs x -> shr_inv P' mrs x.
Proof.
  intros E [Hm (t & Ht & Ht0 & HtP & Hs)]. split; [exact Hm|].
  exists t. rewrite <- E. auto.
Qed.

Lemma pow2_pos (e : Z) : 0 < 2 ^ e.
Proof. apply Qpower_0_lt. reflexivity. Qed.

Lemma pow2_add (a b : Z) : 2 ^ (a + b) == 2 ^ a * 2 ^ b.
Proof. apply Qpower_plus. discriminate. Qed.

Lemma pow2_1 : 2 ^ 1 == 2.
Proof. reflexivity. Qed.

Lemma iter_pos_shr_inv (p : positive) (P : Q) (mrs : shr_record) (x : Q) :
  0 < P -> shr_inv P mrs x ->
  shr_inv (P * 2 ^ Zpos p) (iter_pos shr_1 p mrs) x.
Proof.
  revert P mrs. induction p as [p IH | p IH |]; intros P mrs HP H; simpl iter_pos.
  - apply shr_1_inv in H; [|exact HP].
    assert (H2 : 0 < 2 * P) by Lqa.lra.
    apply (IH _ _ H2) in H.
    assert (H3 : 0 < 2 * P * 2 ^ Zpos p)
      by (pose proof (pow2_pos (Zpos p)); Lqa.nra).
    apply (IH _ _ H3) in H.
    revert H. apply shr_inv_ext.
    replace (Zpos p~1) with (Zpos p + Zpos p + 1)%Z by lia.
    rewrite !pow2_add, pow2_1. Lqa.lra.
  - apply (IH _ _ HP) in H.
    assert (H3 : 0 < P * 2 ^ Zpos p)
      by (pose proof (pow2_pos (Zpos p)); Lqa.nra).
    apply (IH _ _ H3) in H.
    revert H. apply shr_inv_ext.
    replace (Zpos p~0) with (Zpos p + Zpos p)%Z by lia.
    rewrite !pow2_add. Lqa.lra.
  - apply shr_1_inv in H; [|exact HP].
    revert H. apply shr_inv_ext. rewrite pow2_1. Lqa.lra.
Qed.

Lemma shr_inv_of_loc (m : Z) (x : Q) (l : location) :
  (0 <= m)%Z -> inbetween m x l -> shr_inv 1 (shr_record_of_loc m l) x.
Proof.
  intros Hm H. split; [destruct l as [|[]]; exact Hm|].
  destruct l as [|[]]; simpl in *.
  - exists 0. repeat split; try Lqa.lra; discriminate.
  - exists 0. repeat split; try Lqa.lra; discriminate.
  - exists (2 * (x - inject_Z m)). repeat split; try Lqa.lra; discriminate.
  - exists (2 * (x - inject_Z m) - 1). repeat split; try Lqa.lra; discriminate.
Qed.

(** Rounding to nearest after the shift is off by at most half a unit. *)
Lemma round_nearest_even_inv (P : Q) (mrs : shr_record) (x : Q) :
  0 < P -> shr_inv P mrs x ->
  let m' := round_nearest_even (shr_m mrs) (loc_of_shr_record mrs) in
  (shr_m mrs <= m' <= shr_m mrs + 1)%Z /\
  Qabs (inject_Z m' * P - x) <= (1 # 2) * P /\
  inject_Z (shr_m mrs) * P <= x /\ x < (inject_Z (shr_m mrs) + 1) * P.
Proof.
  intros HP [Hm (t & Ht & Ht0 & HtP & Hs0 & Hs1)]. cbv zeta.
  destruct mrs as [m r s].
  cbn [shr_m shr_r shr_s] in *.
  assert (Hx : inject_Z m * P <= x /\ x < (inject_Z m + 1) * P)
    by (destruct r; cbn [b2q] in Ht; split; Lqa.nra).
  destruct r, s; cbn [round_nearest_even loc_of_shr_record b2q] in *;
    try (specialize (Hs0 eq_refl)); try (specialize (Hs1 eq_refl));
    try (destruct (Z.even m); [|]);
    rewrite ?inject_Z_plus; change (inject_Z 1) with 1;
    (split; [lia|]); (split; [|exact Hx]);
    apply Qabs_Qle_condition; split; Lqa.nra.
Qed.

(** *** Digits and powers of two *)

Lemma digits2_pos_bounds (m : positive) :
  (2 ^ (Zpos (digits2_pos m) - 1) <= Zpos m < 2 ^ Zpos (digits2_pos m))%Z.
Proof.
  induction m as [m IH | m IH |]; simpl digits2_pos.
  - rewrite Pos2Z.inj_succ.
    replace (Z.succ (Zpos (digits2_pos m)) - 1)%Z
      with (Z.succ (Zpos (digits2_pos m) - 1))%Z by lia.
    rewrite !Z.pow_succ_r by lia. lia.
  - rewrite Pos2Z.inj_succ.
    replace (Z.succ (Zpos (digits2_pos m)) - 1)%Z
      with (Z.succ (Zpos (digits2_pos m) - 1))%Z by lia.
    rewrite !Z.pow_succ_r by lia. lia.
  - simpl. lia.
Qed.

Lemma Zdigits2_bounds (m : Z) :
  (0 < m)%Z ->
  (0 < Zdigits2 m /\ 2 ^ (Zdigits2 m - 1) <= m < 2 ^ Zdigits2 m)%Z.
Proof.
  destruct m as [|p|p]; try lia. intros _. simpl Zdigits2.
  split; [lia | apply digits2_pos_bounds].
Qed.

Lemma Zdigits2_nonneg (m : Z) : (0 <= Zdigits2 m)%Z.
Proof. destruct m; simpl; lia. Qed.

Lemma Zdigits2_le (m k : Z) :
  (0 <= m)%Z -> (0 <= k)%Z -> (m < 2 ^ k)%Z -> (Zdigits2 m <= k)%Z.
Proof.
  intros Hm Hk H.
  destruct (Z.eq_dec m 0) as [-> | N]; [simpl; lia|].
  destruct (Zdigits2_bounds m) as [Hd [Hlo _]]; [lia|].
  destruct (Z.le_gt_cases (Zdigits2 m) k) as [L | G]; [exact L|].
  exfalso.
  assert (2 ^ k <= 2 ^ (Zdigits2 m - 1))%Z
    by (apply Z.pow_le_mono_r; lia).
  lia.
Qed.

Lemma fexp64_eq (e : Z) : fexp64 e = Z.max (e - 53) (-1074).
Proof. reflexivity. Qed.

Lemma inject_Z_pow2 (k : Z) : (0 <= k)%Z -> inject_Z (2 ^ k) == 2 ^ k.
Proof. intros H. now rewrite Zpower_Qpower. Qed.

Lemma pow2_le (a b : Z) : (a <= b)%Z -> 2 ^ a <= 2 ^ b.
Proof. intros H. apply Qpower_le_compat_l; [exact H | discriminate]. Qed.

Lemma pow2_lt (a b : Z) : (a < b)%Z -> 2 ^ a < 2 ^ b.
Proof. intros H. apply Qpower_lt_compat_l; [exact H | reflexivity]. Qed.

Lemma pow2_lt_inv (a b : Z) : 2 ^ a < 2 ^ b -> (a < b)%Z.
Proof. intros H. apply Qpower_lt_compat_l_inv with (q := 2); [exact H | reflexivity]. Qed.

(** *** [binary_round_aux] *)

Lemma shr_nonpos (mrs : shr_record) (e n : Z) :
  (n <= 0)%Z -> shr mrs e n = (mrs, e).
Proof. destruct n; try reflexivity. lia. Qed.

(** The first shift of [binary_round_aux]. *)
Lemma shr_spec (mx ex n : Z) (lx : location) (x : Q) :
  (0 <= mx)%Z -> inbetween mx x lx -> (0 <= n)%Z ->
  shr_inv (2 ^ n) (fst (shr (shr_record_of_loc mx lx) ex n)) x /\
  snd (shr (shr_record_of_loc mx lx) ex n) = (ex + n)%Z.
Proof.
  intros Hm Hx Hn. pose proof (shr_inv_of_loc mx x lx Hm Hx) as H0.
  destruct n as [|p|p]; try lia.
  - simpl. split; [exact H0 | lia].
  - simpl fst. simpl snd. split; [|reflexivity].
    apply (iter_pos_shr_inv p) in H0; [|reflexivity].
    revert H0. apply shr_inv_ext. Lqa.lra.
Qed.

(** The second shift only renormalises a mantissa that rounding carried to
    2^53. *)
Lemma renormalise (m f : Z) :
  (0 <= m <= 2 ^ 53)%Z -> (-1074 <= f)%Z ->
  exists m'' e'',
    shr_fexp prec emax m f loc_Exact =
      (Build_shr_record m'' false false, e'') /\
    (0 <= m'')%Z /\
    inject_Z m'' * 2 ^ e'' == inject_Z m * 2 ^ f /\
    (m'' = 0 <-> m = 0)%Z /\
    ((e'' = f) \/ (m = 2 ^ 53 /\ e'' = f + 1))%Z.
Proof.
  intros Hm Hf. unfold shr_fexp. fold (fexp64 (Zdigits2 m + f)).
  rewrite fexp64_eq.
  destruct (Z.eq_dec m (2 ^ 53)) as [-> | N].
  - change (Zdigits2 (2 ^ 53)) with 54%Z.
    replace (Z.max (54 + f - 53) (-1074) - f)%Z with 1%Z by lia.
    exists (2 ^ 52)%Z, (f + 1)%Z. split; [reflexivity|].
    split; [lia|]. split.
    + rewrite pow2_add. change (inject_Z (2 ^ 52)) with (2 ^ 52).
      change (inject_Z (2 ^ 53)) with (2 ^ 53).
      setoid_replace (2 ^ 53) with (2 ^ 52 * 2 ^ 1) by reflexivity.
      Lqa.lra.
    + split; [split; intros E; discriminate E | right; split; reflexivity].
  - assert (Hd : (Zdigits2 m <= 53)%Z) by (apply Zdigits2_le; lia).
    rewrite shr_nonpos by lia.
    exists m, f. split; [reflexivity|]. split; [lia|].
    split; [reflexivity|]. split; [reflexivity | now left].
Qed.

Lemma inbetween_bounds (m : Z) (x : Q) (l : location) :
  inbetween m x l -> inject_Z m <= x /\ x < inject_Z m + 1.
Proof. destruct l as [|[]]; simpl; intros H; split; Lqa.lra. Qed.

Lemma pow2_split (a b : Z) : 2 ^ a == 2 ^ (a - b) * 2 ^ b.
Proof. rewrite <- pow2_add. now replace (a - b + b)%Z with a by lia. Qed.

Lemma Qabs_signed (s : bool) (a b : Q) :
  Qabs (signed s a - signed s b) == Qabs (a - b).
Proof.
  destruct s; unfold signed; [|reflexivity].
  rewrite <- (Qabs_opp (a - b)).
  apply Qabs_wd. Lqa.lra.
Qed.

(** [binary_round_aux] on a mantissa [mx] with the rest of the value at
    location [lx], not shifted beyond the format and not overflowing:
    the result is finite and off by at most 2^-53 of the value, or by
    2^-1075 in the subnormal range. *)
Lemma binary_round_aux_spec (s : bool) (mx ex : Z) (lx : location) (x : Q) :
  (0 <= mx)%Z -> inbetween mx x lx ->
  (ex <= fexp64 (Zdigits2 mx + ex))%Z ->
  x * 2 ^ ex < 2 ^ 1023 ->
  exists r,
    SF2Q (binary_round_aux prec emax s mx ex lx) = Some r /\
    Qabs (r - signed s (x * 2 ^ ex)) <=
      2 ^ (-53) * (x * 2 ^ ex) + 2 ^ (-1075).
Proof.
  intros Hm Hx Hal Hov.
  destruct (inbetween_bounds mx x lx Hx) as [Hxlo Hxhi].
  assert (Hx0 : 0 <= x).
  { apply Qle_trans with (inject_Z mx); [|exact Hxlo].
    change 0 with (inject_Z 0). rewrite <- Zle_Qle. exact Hm. }
  set (d := Zdigits2 mx) in *. set (f := fexp64 (d + ex)) in *.
  assert (Hf : f = Z.max (d + ex - 53) (-1074)) by apply fexp64_eq.
  assert (Hd0 : (0 <= d)%Z) by apply Zdigits2_nonneg.
  pose proof (pow2_pos ex) as Pex.
  pose proof (pow2_pos (f - ex)) as Pn.
  (* the magnitude of x against the digits of mx *)
  assert (Hxd : x < 2 ^ d).
  { apply Qlt_le_trans with (inject_Z mx + 1); [exact Hxhi|].
    rewrite <- (inject_Z_pow2 d Hd0).
    change 1 with (inject_Z 1). rewrite <- inject_Z_plus, <- Zle_Qle.
    destruct (Z.eq_dec mx 0) as [E | N].
    - subst mx. subst d. simpl. lia.
    - destruct (Zdigits2_bounds mx) as [_ [_ H]]; [lia|]. fold d in H. lia. }
  assert (Hbig : (mx <> 0)%Z -> 2 ^ (d - 1 + ex) <= x * 2 ^ ex).
  { intros N. destruct (Zdigits2_bounds mx) as [H1 [H2 _]]; [lia|].
    fold d in H1, H2.
    rewrite pow2_add.
    assert (2 ^ (d - 1) <= x).
    { apply Qle_trans with (inject_Z mx); [|exact Hxlo].
      rewrite <- inject_Z_pow2 by lia. rewrite <- Zle_Qle. exact H2. }
    Lqa.nra. }
  assert (Hzero : mx = 0%Z -> f = (-1074)%Z).
  { intros E. subst mx. subst d. simpl Zdigits2 in *. lia. }
  (* the first shift and the rounding *)
  unfold binary_round_aux, shr_fexp at 1.
  change (fexp prec emax (Zdigits2 mx + ex)) with f.
  destruct (shr_spec mx ex (f - ex) lx x Hm Hx ltac:(lia)) as [Hinv He'].
  destruct (shr (shr_record_of_loc mx lx) ex (f - ex)) as [rec1 e'].
  cbn [fst snd] in Hinv, He'. subst e'.
  replace (ex + (f - ex))%Z with f by lia.
  destruct (round_nearest_even_inv _ _ _ Pn Hinv) as (Hmr & Herr & Hlo & Hhi).
  assert (Hm1 : (0 <= shr_m rec1)%Z) by apply Hinv.
  set (m1 := shr_m rec1) in *.
  set (mr := round_nearest_even m1 (loc_of_shr_record rec1)) in *.
  assert (Hm1hi : (m1 < 2 ^ 53)%Z).
  { rewrite Zlt_Qlt. rewrite (inject_Z_pow2 53) by lia.
    assert (H : inject_Z m1 * 2 ^ (f - ex) < 2 ^ 53 * 2 ^ (f - ex)).
    { apply Qle_lt_trans with x; [exact Hlo|].
      apply Qlt_le_trans with (2 ^ d); [exact Hxd|].
      rewrite <- pow2_add. apply pow2_le. lia. }
    Lqa.nra. }
  (* the error of the rounded mantissa, at the exponent f *)
  assert (Hval : Qabs (inject_Z mr * 2 ^ f - x * 2 ^ ex) <=
                 (1 # 2) * 2 ^ f).
  { rewrite (pow2_split f ex).
    setoid_replace (inject_Z mr * (2 ^ (f - ex) * 2 ^ ex) - x * 2 ^ ex)
      with ((inject_Z mr * 2 ^ (f - ex) - x) * 2 ^ ex) by Lqa.lra.
    rewrite Qabs_Qmult, (Qabs_pos (2 ^ ex)) by Lqa.lra.
    assert (0 <= Qabs (inject_Z mr * 2 ^ (f - ex) - x)) by apply Qabs_nonneg.
    Lqa.nra. }
  assert (Hhalf : (1 # 2) * 2 ^ f <=
                  2 ^ (-53) * (x * 2 ^ ex) + 2 ^ (-1075)).
  { assert (Hu : 0 < 2 ^ (-53)) by apply pow2_pos.
    assert (HX : 0 <= x * 2 ^ ex) by Lqa.nra.
    destruct (Z.eq_dec f (-1074)) as [E | N].
    - rewrite E. setoid_replace ((1 # 2) * 2 ^ (-1074)) with (2 ^ (-1075))
        by reflexivity. Lqa.nra.
    - assert (Nz : mx <> 0%Z) by (intros E; apply N, Hzero, E).
      specialize (Hbig Nz).
      assert (Ef : f = (d + ex - 53)%Z) by lia.
      assert (E2 : (1 # 2) * 2 ^ f == 2 ^ (-53) * 2 ^ (d - 1 + ex)).
      { rewrite <- pow2_add.
        replace (-53 + (d - 1 + ex))%Z with (f + -1)%Z by lia.
        rewrite pow2_add.
        setoid_replace (2 ^ (-1)) with (1 # 2) by reflexivity. Lqa.lra. }
      rewrite E2.
      pose proof (pow2_pos (-1075)). Lqa.nra. }
  assert (Hexp : (mx <> 0)%Z -> (f <= 970)%Z).
  { intros Nz. specialize (Hbig Nz).
    assert (2 ^ (d - 1 + ex) < 2 ^ 1023)
      by (apply Qle_lt_trans with (x * 2 ^ ex); assumption).
    apply pow2_lt_inv in H. lia. }
  (* the second shift *)
  destruct (renormalise mr f ltac:(lia) ltac:(lia))
    as (m'' & e'' & -> & Hm'' & Hsame & Hz & He'').
  cbn [shr_m].
  destruct m'' as [|p|p]; try lia.
  - exists 0. split; [reflexivity|].
    assert (E : mr = 0%Z) by (apply Hz; reflexivity).
    rewrite E in Hval.
    assert (E0 : Qabs (0 - signed s (x * 2 ^ ex)) ==
                 Qabs (inject_Z 0 * 2 ^ f - x * 2 ^ ex)).
    { change (inject_Z 0) with 0.
      destruct s; unfold signed;
        [rewrite <- (Qabs_opp (0 * 2 ^ f - x * 2 ^ ex))|];
        apply Qabs_wd; Lqa.lra. }
    rewrite E0.
    eapply Qle_trans; [exact Hval | exact Hhalf].
  - assert (Hle : (e'' <=? emax - prec)%Z = true).
    { apply Z.leb_le. change (emax - prec)%Z with 971%Z.
      destruct (Z.eq_dec mx 0) as [E | N].
      - specialize (Hzero E). lia.
      - specialize (Hexp N). lia. }
    rewrite Hle.
    exists (signed s (inject_Z (Zpos p) * 2 ^ e'')). split; [reflexivity|].
    rewrite Qabs_signed, Hsame.
    eapply Qle_trans; [exact Hval | exact Hhalf].
Qed.

(** *** Multiplication *)

Lemma rounds_to_ext (r : spec_float) (X X' : Q) :
  X == X' -> rounds_to r X -> rounds_to r X'.
Proof.
  intros E (Z & HZ & Hb). exists Z. split; [exact HZ|].
  now rewrite <- E.
Qed.

Lemma rounds_to_exact (r : spec_float) (X : Q) :
  SF2Q r = Some X -> rounds_to r X.
Proof.
  intros H. exists X. split; [exact H|].
  setoid_replace (X - X) with 0 by Lqa.lra.
  pose proof (Qabs_nonneg X). pose proof (pow2_pos (-53)).
  pose proof (pow2_pos (-1075)). change (Qabs 0) with 0. Lqa.nra.
Qed.

Lemma rounds_to_exact_eq (r : spec_float) (X Y : Q) :
  SF2Q r = Some Y -> Y == X -> rounds_to r X.
Proof.
  intros H E. apply rounds_to_ext with Y; [exact E|].
  now apply rounds_to_exact.
Qed.

Lemma Qabs_signed_pos (s : bool) (X : Q) : 0 <= X -> Qabs (signed s X) == X.
Proof.
  intros H. destruct s; unfold signed.
  - rewrite Qabs_opp. now apply Qabs_pos.
  - now apply Qabs_pos.
Qed.

Lemma binary_round_aux_rounds (s : bool) (mx ex : Z) (lx : location) (x : Q) :
  (0 <= mx)%Z -> inbetween mx x lx ->
  (ex <= fexp64 (Zdigits2 mx + ex))%Z ->
  x * 2 ^ ex < 2 ^ 1023 ->
  rounds_to (binary_round_aux prec emax s mx ex lx) (signed s (x * 2 ^ ex)).
Proof.
  intros Hm Hx Hal Hov.
  destruct (binary_round_aux_spec s mx ex lx x Hm Hx Hal Hov) as (r & Hr & Hb).
  exists r. split; [exact Hr|].
  rewrite Qabs_signed_pos; [exact Hb|].
  destruct (inbetween_bounds mx x lx Hx) as [Hlo _].
  assert (0 <= inject_Z mx)
    by (change 0 with (inject_Z 0); rewrite <- Zle_Qle; exact Hm).
  pose proof (pow2_pos ex). Lqa.nra.
Qed.

(** Validity of a finite binary64 number. *)
Lemma valid_finite (s : bool) (m : positive) (e : Z) :
  valid_binary prec emax (S754_finite s m e) = true ->
  e = fexp64 (Zpos (digits2_pos m) + e) /\ (e <= 971)%Z.
Proof.
  unfold valid_binary, bounded, canonical_mantissa.
  intros H. apply andb_true_iff in H as [H1 H2].
  apply Z.eqb_eq in H1. apply Z.leb_le in H2. split.
  - symmetry. exact H1.
  - exact H2.
Qed.

Lemma valid_digits (s : bool) (m : positive) (e : Z) :
  valid_binary prec emax (S754_finite s m e) = true ->
  (-1074 <= e <= 971)%Z /\ (Zpos (digits2_pos m) <= 53)%Z /\
  (Zpos (digits2_pos m) < 53 -> e = -1074)%Z.
Proof.
  intros H. apply valid_finite in H as [H1 H2].
  rewrite fexp64_eq in H1. lia.
Qed.

Lemma signed_wd (s : bool) (a b : Q) : a == b -> signed s a == signed s b.
Proof. intros E. destruct s; unfold signed; now rewrite E. Qed.

Lemma signed_mul (s1 s2 : bool) (a b : Q) :
  signed s1 a * signed s2 b == signed (xorb s1 s2) (a * b).
Proof. destruct s1, s2; unfold signed; simpl xorb; cbv iota; Lqa.lra. Qed.

Lemma digits2_pos_mul (a b : positive) :
  (Zpos (digits2_pos a) + Zpos (digits2_pos b) - 1 <=
   Zpos (digits2_pos (a * b)))%Z.
Proof.
  pose proof (digits2_pos_bounds a) as [Ha _].
  pose proof (digits2_pos_bounds b) as [Hb _].
  pose proof (digits2_pos_bounds (a * b)) as [_ Hab].
  set (da := Zpos (digits2_pos a)) in *.
  set (db := Zpos (digits2_pos b)) in *.
  set (dab := Zpos (digits2_pos (a * b))) in *.
  assert (Hp : (2 ^ (da - 1) * 2 ^ (db - 1) <= Zpos a * Zpos b)%Z).
  { apply Z.mul_le_mono_nonneg; try assumption; apply Z.pow_nonneg; lia. }
  rewrite <- Z.pow_add_r in Hp by lia.
  rewrite Pos2Z.inj_mul in Hab.
  assert (Hlt : (2 ^ (da - 1 + (db - 1)) < 2 ^ dab)%Z) by lia.
  apply Z.pow_lt_mono_r_iff in Hlt; lia.
Qed.

(** The product of two finite numbers, short of overflow. *)
Lemma SFmul_rounds (x y : spec_float) (V1 V2 : Q) :
  valid_binary prec emax x = true -> valid_binary prec emax y = true ->
  SF2Q x = Some V1 -> SF2Q y = Some V2 ->
  Qabs (V1 * V2) < 2 ^ 1023 ->
  rounds_to (SFmul prec emax x y) (V1 * V2).
Proof.
  intros Hx Hy H1 H2 Hov.
  destruct x as [sx | sx | | sx mx ex]; try discriminate H1;
  destruct y as [sy | sy | | sy my ey]; try discriminate H2;
  simpl in H1, H2; injection H1 as <-; injection H2 as <-; simpl SFmul.
  - apply rounds_to_exact_eq with 0; [reflexivity | Lqa.lra].
  - apply rounds_to_exact_eq with 0; [reflexivity | Lqa.lra].
  - apply rounds_to_exact_eq with 0; [reflexivity | Lqa.lra].
  - assert (E : signed sx (inject_Z (Zpos mx) * 2 ^ ex) *
                signed sy (inject_Z (Zpos my) * 2 ^ ey) ==
                signed (xorb sx sy)
                  (inject_Z (Zpos (mx * my)) * 2 ^ (ex + ey))).
    { rewrite signed_mul. apply signed_wd.
      rewrite Pos2Z.inj_mul, inject_Z_mult, pow2_add. ring. }
    apply rounds_to_ext
      with (signed (xorb sx sy) (inject_Z (Zpos (mx * my)) * 2 ^ (ex + ey)));
      [symmetry; exact E|].
    apply binary_round_aux_rounds.
    + lia.
    + simpl. reflexivity.
    + apply valid_digits in Hx as (Hex & Hdx & Hsx).
      apply valid_digits in Hy as (Hey & Hdy & Hsy).
      pose proof (digits2_pos_mul mx my) as Hd.
      rewrite fexp64_eq. simpl Zdigits2.
      pose proof (Pos2Z.is_pos (digits2_pos mx)).
      pose proof (Pos2Z.is_pos (digits2_pos my)).
      lia.
    + rewrite E, Qabs_signed_pos in Hov; [exact Hov|].
      pose proof (pow2_pos (ex + ey)).
      assert (0 < inject_Z (Zpos (mx * my)))
        by (change 0 with (inject_Z 0); rewrite <- Zlt_Qlt; lia).
      Lqa.nra.
Qed.

(** *** Addition and subtraction *)

Lemma iter_xO (m d : positive) :
  Zpos (Pos.iter xO m d) = (Zpos m * 2 ^ Zpos d)%Z.
Proof.
  induction d as [|d IH] using Pos.peano_ind.
  - simpl. lia.
  - rewrite Pos.iter_succ, Pos2Z.inj_xO, IH, Pos2Z.inj_succ, Z.pow_succ_r
      by lia. lia.
Qed.

Lemma digits2_pos_iter_xO (m d : positive) :
  Zpos (digits2_pos (Pos.iter xO m d)) =
  (Zpos (digits2_pos m) + Zpos d)%Z.
Proof.
  induction d as [|d IH] using Pos.peano_ind.
  - simpl. lia.
  - rewrite Pos.iter_succ. simpl digits2_pos.
    rewrite Pos2Z.inj_succ, IH, Pos2Z.inj_succ. lia.
Qed.

Lemma shl_align_spec (mx : positive) (ex ex' : Z) :
  snd (shl_align mx ex ex') = Z.min ex ex' /\
  Zpos (fst (shl_align mx ex ex')) =
    (Zpos mx * 2 ^ (ex - Z.min ex ex'))%Z /\
  Zpos (digits2_pos (fst (shl_align mx ex ex'))) =
    (Zpos (digits2_pos mx) + (ex - Z.min ex ex'))%Z.
Proof.
  unfold shl_align.
  destruct (ex' - ex)%Z as [|d|d] eqn:E; cbn [fst snd].
  - replace (Z.min ex ex') with ex by lia.
    rewrite Z.sub_diag. simpl. lia.
  - replace (Z.min ex ex') with ex by lia.
    rewrite Z.sub_diag. simpl. lia.
  - replace (Z.min ex ex') with ex' by lia.
    replace (ex - ex')%Z with (Zpos d) by lia.
    rewrite iter_xO, digits2_pos_iter_xO. lia.
Qed.

Lemma shifted_value (m : positive) (e e' : Z) (m' : positive) :
  (e' <= e)%Z -> Zpos m' = (Zpos m * 2 ^ (e - e'))%Z ->
  inject_Z (Zpos m') * 2 ^ e' == inject_Z (Zpos m) * 2 ^ e.
Proof.
  intros Hle ->. rewrite inject_Z_mult, inject_Z_pow2 by lia.
  rewrite (pow2_split e e'). ring.
Qed.

Lemma binary_round_rounds (s : bool) (p : positive) (e : Z) :
  inject_Z (Zpos p) * 2 ^ e < 2 ^ 1023 ->
  rounds_to (binary_round prec emax s p e)
            (signed s (inject_Z (Zpos p) * 2 ^ e)).
Proof.
  intros Hov. unfold binary_round.
  change (fexp prec emax (Zpos (digits2_pos p) + e))
    with (fexp64 (Zpos (digits2_pos p) + e)).
  set (fe := fexp64 (Zpos (digits2_pos p) + e)).
  destruct (shl_align_spec p e fe) as (He & Hm & Hd).
  destruct (shl_align p e fe) as [mz ez]. cbn [fst snd] in He, Hm, Hd.
  assert (Hv : inject_Z (Zpos mz) * 2 ^ ez == inject_Z (Zpos p) * 2 ^ e)
    by (apply shifted_value; [lia | now rewrite He]).
  apply rounds_to_ext with (signed s (inject_Z (Zpos mz) * 2 ^ ez));
    [now apply signed_wd|].
  apply binary_round_aux_rounds.
  - lia.
  - simpl. reflexivity.
  - simpl Zdigits2. rewrite Hd.
    replace (Zpos (digits2_pos p) + (e - Z.min e fe) + ez)%Z
      with (Zpos (digits2_pos p) + e)%Z by lia.
    fold fe. lia.
  - now rewrite Hv.
Qed.

Lemma inject_Z_neg (p : positive) : inject_Z (Zneg p) == - inject_Z (Zpos p).
Proof. reflexivity. Qed.

Lemma binary_normalize_rounds (m e : Z) (sz : bool) :
  Qabs (inject_Z m * 2 ^ e) < 2 ^ 1023 ->
  rounds_to (binary_normalize prec emax m e sz) (inject_Z m * 2 ^ e).
Proof.
  intros Hov. pose proof (pow2_pos e) as Pe.
  destruct m as [|p|p]; unfold binary_normalize.
  - apply rounds_to_exact_eq with 0; [reflexivity|].
    change (inject_Z 0) with 0. ring.
  - assert (0 < inject_Z (Zpos p))
      by (change 0 with (inject_Z 0); rewrite <- Zlt_Qlt; lia).
    rewrite Qabs_pos in Hov by Lqa.nra.
    apply (binary_round_rounds false p e Hov).
  - assert (0 < inject_Z (Zpos p))
      by (change 0 with (inject_Z 0); rewrite <- Zlt_Qlt; lia).
    assert (E : inject_Z (Zneg p) * 2 ^ e ==
                signed true (inject_Z (Zpos p) * 2 ^ e))
      by (unfold signed; rewrite inject_Z_neg; ring).
    rewrite E, Qabs_signed_pos in Hov by Lqa.nra.
    apply rounds_to_ext with (signed true (inject_Z (Zpos p) * 2 ^ e));
      [symmetry; exact E|].
    apply (binary_round_rounds true p e Hov).
Qed.

Lemma inject_cond_Zopp (s : bool) (z : Z) :
  inject_Z (cond_Zopp s z) == signed s (inject_Z z).
Proof.
  destruct s; unfold cond_Zopp, signed; [|reflexivity].
  rewrite inject_Z_opp. reflexivity.
Qed.

Lemma aligned_value (s : bool) (m : positive) (e ez : Z) :
  (ez <= e)%Z ->
  inject_Z (cond_Zopp s (Zpos (fst (shl_align m e ez)))) * 2 ^ ez ==
  signed s (inject_Z (Zpos m) * 2 ^ e).
Proof.
  intros Hle. destruct (shl_align_spec m e ez) as (_ & Hm & _).
  rewrite inject_cond_Zopp.
  replace (Z.min e ez) with ez in Hm by lia.
  pose proof (shifted_value m e ez _ Hle Hm) as Hv.
  destruct s; unfold signed; rewrite <- Hv; ring.
Qed.

(** The sum of two finite numbers, short of overflow. *)
Lemma SFadd_rounds (x y : spec_float) (V1 V2 : Q) :
  SF2Q x = Some V1 -> SF2Q y = Some V2 ->
  Qabs (V1 + V2) < 2 ^ 1023 ->
  rounds_to (SFadd prec emax x y) (V1 + V2).
Proof.
  intros H1 H2 Hov.
  destruct x as [sx | sx | | sx mx ex]; try discriminate H1;
  destruct y as [sy | sy | | sy my ey]; try discriminate H2;
  simpl in H1, H2; injection H1 as <-; injection H2 as <-.
  - apply rounds_to_exact_eq with 0; [|Lqa.lra].
    destruct sx, sy; reflexivity.
  - simpl SFadd. eapply rounds_to_exact_eq; [reflexivity|]. ring.
  - simpl SFadd. eapply rounds_to_exact_eq; [reflexivity|]. ring.
  - unfold SFadd. cbv zeta.
    set (ez := Z.min ex ey).
    assert (E : inject_Z
                  (cond_Zopp sx (Zpos (fst (shl_align mx ex ez))) +
                   cond_Zopp sy (Zpos (fst (shl_align my ey ez)))) *
                2 ^ ez ==
                signed sx (inject_Z (Zpos mx) * 2 ^ ex) +
                signed sy (inject_Z (Zpos my) * 2 ^ ey)).
    { rewrite inject_Z_plus, Qmult_plus_distr_l.
      rewrite !aligned_value by lia. reflexivity. }
    eapply rounds_to_ext; [exact E|].
    apply binary_normalize_rounds. now rewrite E.
Qed.

(** Their difference. *)
Lemma SFsub_rounds (x y : spec_float) (V1 V2 : Q) :
  SF2Q x = Some V1 -> SF2Q y = Some V2 ->
  Qabs (V1 - V2) < 2 ^ 1023 ->
  rounds_to (SFsub prec emax x y) (V1 - V2).
Proof.
  intros H1 H2 Hov.
  destruct x as [sx | sx | | sx mx ex]; try discriminate H1;
  destruct y as [sy | sy | | sy my ey]; try discriminate H2;
  simpl in H1, H2; injection H1 as <-; injection H2 as <-.
  - apply rounds_to_exact_eq with 0; [|Lqa.lra].
    destruct sx, sy; reflexivity.
  - simpl SFsub. eapply rounds_to_exact_eq; [reflexivity|].
    destruct sy; unfold signed; simpl negb; cbv iota; ring.
  - simpl SFsub. eapply rounds_to_exact_eq; [reflexivity|]. ring.
  - unfold SFsub. cbv zeta.
    set (ez := Z.min ex ey).
    assert (E : inject_Z
                  (cond_Zopp sx (Zpos (fst (shl_align mx ex ez))) -
                   cond_Zopp sy (Zpos (fst (shl_align my ey ez)))) *
                2 ^ ez ==
                signed sx (inject_Z (Zpos mx) * 2 ^ ex) -
                signed sy (inject_Z (Zpos my) * 2 ^ ey)).
    { unfold Z.sub. rewrite inject_Z_plus, inject_Z_opp.
      setoid_replace
        ((inject_Z (cond_Zopp sx (Zpos (fst (shl_align mx ex ez)))) +
          - inject_Z (cond_Zopp sy (Zpos (fst (shl_align my ey ez))))) *
         2 ^ ez)
        with (inject_Z (cond_Zopp sx (Zpos (fst (shl_align mx ex ez)))) *
                2 ^ ez -
              inject_Z (cond_Zopp sy (Zpos (fst (shl_align my ey ez)))) *
                2 ^ ez) by ring.
      rewrite !aligned_value by lia. reflexivity. }
    eapply rounds_to_ext; [exact E|].
    apply binary_normalize_rounds. now rewrite E.
Qed.

(** *** Division *)

Lemma Qmult_pos_zero (t M : Q) : 0 < M -> t * M == 0 -> t == 0.
Proof.
  intros HM H. apply Qmult_integral in H as [H | H]; [exact H|].
  rewrite H in HM. discriminate HM.
Qed.

(** The location computed from the remainder [r] of a division by [m2] is
    where the quotient sits. *)
Lemma new_location_inbetween (m2 r q : Z) (xq : Q) :
  (0 < m2)%Z -> (0 <= r < m2)%Z ->
  (xq - inject_Z q) * inject_Z m2 == inject_Z r ->
  inbetween q xq (new_location m2 r).
Proof.
  intros Hm2 Hr E.
  assert (HM : 0 < inject_Z m2)
    by (change 0 with (inject_Z 0); rewrite <- Zlt_Qlt; exact Hm2).
  assert (Hexact : r = 0%Z -> xq == inject_Z q).
  { intros ->. change (inject_Z 0) with 0 in E.
    apply Qmult_pos_zero in E; [Lqa.lra | exact HM]. }
  assert (Hlt : (2 * r < m2)%Z ->
                inject_Z q < xq /\ xq < inject_Z q + (1 # 2) \/ r = 0%Z).
  { intros H. destruct (Z.eq_dec r 0) as [-> | N]; [now right | left].
    assert (0 < inject_Z r)
      by (change 0 with (inject_Z 0); rewrite <- Zlt_Qlt; lia).
    rewrite Zlt_Qlt, inject_Z_mult in H. change (inject_Z 2) with 2 in H.
    split; Lqa.nra. }
  assert (Hgt : (m2 < 2 * r)%Z ->
                inject_Z q + (1 # 2) < xq /\ xq < inject_Z q + 1).
  { intros H.
    assert (H' : inject_Z r < inject_Z m2) by (rewrite <- Zlt_Qlt; lia).
    rewrite Zlt_Qlt, inject_Z_mult in H. change (inject_Z 2) with 2 in H.
    split; Lqa.nra. }
  assert (Heq : (2 * r = m2)%Z -> xq == inject_Z q + (1 # 2)).
  { intros H.
    assert (H' : 2 * inject_Z r == inject_Z m2)
      by (rewrite <- H, inject_Z_mult; reflexivity).
    assert (Ht : (xq - inject_Z q - (1 # 2)) * inject_Z m2 == 0)
      by (rewrite <- H' at 1; rewrite <- H' in E; Lqa.lra).
    apply Qmult_pos_zero in Ht; [Lqa.lra | exact HM]. }
  unfold new_location.
  destruct (Z.even m2) eqn:Ev.
  - unfold new_location_even.
    destruct (Z.eqb_spec r 0) as [R0 | R0]; [exact (Hexact R0)|].
    destruct (Z.compare_spec (2 * r) m2) as [C | C | C]; simpl.
    + exact (Heq C).
    + destruct (Hlt C) as [H | H]; [exact H | contradiction].
    + exact (Hgt C).
  - unfold new_location_odd.
    destruct (Z.eqb_spec r 0) as [R0 | R0]; [exact (Hexact R0)|].
    assert (Hodd : Z.odd m2 = true) by (rewrite <- Z.negb_even, Ev; reflexivity).
    apply Z.odd_spec in Hodd as [k Hk].
    destruct (Z.compare_spec (2 * r + 1) m2) as [C | C | C]; simpl.
    + destruct (Hlt ltac:(lia)) as [H | H]; [exact H | contradiction].
    + destruct (Hlt ltac:(lia)) as [H | H]; [exact H | contradiction].
    + apply Hgt. lia.
Qed.

Lemma fexp64_mono (a b : Z) : (a <= b)%Z -> (fexp64 a <= fexp64 b)%Z.
Proof. intros H. rewrite !fexp64_eq. lia. Qed.

Lemma signed_div (s1 s2 : bool) (a b : Q) :
  ~ b == 0 -> signed s1 a / signed s2 b == signed (xorb s1 s2) (a / b).
Proof.
  intros Hb. destruct s1, s2; unfold signed; simpl xorb; cbv iota;
    field; exact Hb.
Qed.

(** The integer quotient handed to [binary_round_aux], its location and
    its exponent. *)
Lemma SFdiv_core_spec (mx my : positive) (ex ey : Z) :
  exists (q e' : Z) (l : location) (xq : Q),
    SFdiv_core_binary prec emax (Zpos mx) ex (Zpos my) ey = (q, e', l) /\
    (0 <= q)%Z /\ inbetween q xq l /\
    (e' <= fexp64 (Zdigits2 q + e'))%Z /\
    xq * 2 ^ e' ==
      (inject_Z (Zpos mx) * 2 ^ ex) / (inject_Z (Zpos my) * 2 ^ ey).
Proof.
  unfold SFdiv_core_binary. cbv zeta.
  change (fexp prec emax) with fexp64.
  set (d1 := Zdigits2 (Zpos mx)). set (d2 := Zdigits2 (Zpos my)).
  set (e' := Z.min (fexp64 (d1 + ex - (d2 + ey))) (ex - ey)).
  set (s := (ex - ey - e')%Z).
  assert (Hs : (0 <= s)%Z) by (unfold s, e'; lia).
  set (m' := match s with
             | 0%Z => Zpos mx
             | Zpos _ => Z.shiftl (Zpos mx) s
             | Zneg _ => 0%Z
             end).
  assert (Hm' : m' = (Zpos mx * 2 ^ s)%Z).
  { unfold m'. destruct s as [|p|p]; try lia.
    apply Z.shiftl_mul_pow2. lia. }
  clearbody m'.
  pose proof (Z.div_eucl_eq m' (Zpos my) ltac:(lia)) as Heq.
  pose proof (Z.mod_pos_bound m' (Zpos my) ltac:(lia)) as Hmod.
  unfold Z.modulo in Hmod.
  destruct (Z.div_eucl m' (Zpos my)) as [q r] eqn:Ed.
  assert (Hq : (q = m' / Zpos my)%Z) by (unfold Z.div; now rewrite Ed).
  assert (HM2 : 0 < inject_Z (Zpos my))
    by (change 0 with (inject_Z 0); rewrite <- Zlt_Qlt; lia).
  assert (Hm'0 : (0 < m')%Z) by (rewrite Hm'; apply Z.mul_pos_pos; [lia|];
                                 apply Z.pow_pos_nonneg; lia).
  assert (Hq0 : (0 <= q)%Z) by (rewrite Hq; apply Z.div_pos; lia).
  exists q, e', (new_location (Zpos my) r), (inject_Z m' / inject_Z (Zpos my)).
  split; [reflexivity|]. split; [exact Hq0|].
  assert (Hx : inject_Z m' / inject_Z (Zpos my) * inject_Z (Zpos my) ==
               inject_Z m')
    by (field; Lqa.lra).
  split; [|split].
  - apply new_location_inbetween; try lia.
    setoid_replace ((inject_Z m' / inject_Z (Zpos my) - inject_Z q) *
                    inject_Z (Zpos my))
      with (inject_Z m' / inject_Z (Zpos my) * inject_Z (Zpos my) -
            inject_Z q * inject_Z (Zpos my)) by ring.
    rewrite Hx. rewrite Heq at 1.
    rewrite inject_Z_plus, inject_Z_mult. ring.
  - apply Z.le_trans with (fexp64 (d1 + ex - (d2 + ey))); [unfold e'; lia|].
    apply fexp64_mono.
    assert (Hk : (d1 + s - d2 <= Zdigits2 q)%Z).
    { destruct (Z.le_gt_cases (d1 + s - d2) 0) as [L | G].
      - pose proof (Zdigits2_nonneg q). lia.
      - pose proof (digits2_pos_bounds mx) as [B1 _].
        pose proof (digits2_pos_bounds my) as [_ B2].
        fold (Zdigits2 (Zpos mx)) in B1. fold d1 in B1.
        fold (Zdigits2 (Zpos my)) in B2. fold d2 in B2.
        assert (Hd1 : (0 < d1)%Z) by reflexivity.
        assert (Hd2 : (0 < d2)%Z) by reflexivity.
        assert (Hlow : (2 ^ (d1 + s - d2 - 1) <= q)%Z).
        { rewrite Hq. apply Z.div_le_lower_bound; [lia|].
          rewrite Hm'.
          apply Z.le_trans with (2 ^ d2 * 2 ^ (d1 + s - d2 - 1))%Z.
          - apply Z.mul_le_mono_nonneg_r; [apply Z.pow_nonneg|]; lia.
          - rewrite <- Z.pow_add_r by lia.
            replace (d2 + (d1 + s - d2 - 1))%Z with ((d1 - 1) + s)%Z by lia.
            rewrite Z.pow_add_r by lia.
            apply Z.mul_le_mono_nonneg_r; [apply Z.pow_nonneg; lia|].
            exact B1. }
        assert (Hqpos : (0 < q)%Z).
        { apply Z.lt_le_trans with (2 ^ (d1 + s - d2 - 1))%Z;
            [apply Z.pow_pos_nonneg; lia | exact Hlow]. }
        destruct (Zdigits2_bounds q Hqpos) as (_ & _ & Hup).
        assert (Hlt : (2 ^ (d1 + s - d2 - 1) < 2 ^ Zdigits2 q)%Z) by lia.
        destruct (Z.le_gt_cases (Zdigits2 q) (d1 + s - d2 - 1)) as [L | L];
          [|lia].
        apply (Z.pow_le_mono_r 2) in L; lia. }
    unfold s in Hk. lia.
  - rewrite Hm', inject_Z_mult, inject_Z_pow2 by lia.
    assert (E1 : 2 ^ ex == 2 ^ s * 2 ^ e' * 2 ^ ey).
    { rewrite <- !pow2_add. now replace (s + e' + ey)%Z with ex
        by (unfold s; lia). }
    rewrite E1.
    pose proof (pow2_pos ey). field. split; Lqa.lra.
Qed.

(** The quotient of two finite numbers, the divisor not zero. *)
Lemma SFdiv_rounds (x y : spec_float) (V1 V2 : Q) :
  SF2Q x = Some V1 -> SF2Q y = Some V2 -> ~ V2 == 0 ->
  Qabs (V1 / V2) < 2 ^ 1023 ->
  rounds_to (SFdiv prec emax x y) (V1 / V2).
Proof.
  intros H1 H2 Hnz Hov.
  destruct x as [sx | sx | | sx mx ex]; try discriminate H1;
  destruct y as [sy | sy | | sy my ey]; try discriminate H2;
  simpl in H1, H2; injection H1 as <-; injection H2 as <-.
  - now elim Hnz.
  - simpl SFdiv. eapply rounds_to_exact_eq; [reflexivity|].
    unfold Qdiv. ring.
  - now elim Hnz.
  - unfold SFdiv.
    destruct (SFdiv_core_spec mx my ex ey)
      as (q & e' & l & xq & -> & Hq & Hin & Hal & Hv).
    assert (Hpos : 0 < inject_Z (Zpos my) * 2 ^ ey).
    { pose proof (pow2_pos ey).
      assert (0 < inject_Z (Zpos my))
        by (change 0 with (inject_Z 0); rewrite <- Zlt_Qlt; lia).
      Lqa.nra. }
    assert (E : signed sx (inject_Z (Zpos mx) * 2 ^ ex) /
                signed sy (inject_Z (Zpos my) * 2 ^ ey) ==
                signed (xorb sx sy) (xq * 2 ^ e')).
    { rewrite signed_div by Lqa.lra. apply signed_wd. now rewrite Hv. }
    apply rounds_to_ext with (signed (xorb sx sy) (xq * 2 ^ e'));
      [symmetry; exact E|].
    apply binary_round_aux_rounds; try assumption.
    rewrite E, Qabs_signed_pos in Hov; [exact Hov|].
    destruct (inbetween_bounds q xq l Hin) as [Hlo _].
    assert (0 <= inject_Z q)
      by (change 0 with (inject_Z 0); rewrite <- Zle_Qle; exact Hq).
    pose proof (pow2_pos e'). Lqa.nra.
Qed.

(** *** Chains of operations on primitive floats *)

Lemma unit_roundoff_eq : unit_roundoff == 2 ^ (-53).
Proof. reflexivity. Qed.

Lemma underflow_unit_eq : underflow_unit == 2 ^ (-1075).
Proof. vm_compute. reflexivity. Qed.

Lemma overflow_threshold_eq : overflow_threshold == 2 ^ 1023.
Proof. vm_compute. reflexivity. Qed.

Lemma rounds_to_rounded (r : spec_float) (X : Q) :
  rounds_to r X -> rounded (SF2Q r) X.
Proof.
  intros (Y & HY & Hb). exists Y. split; [exact HY|].
  now rewrite unit_roundoff_eq, underflow_unit_eq.
Qed.

Lemma rounded_ext (r : option Q) (X X' : Q) :
  X == X' -> rounded r X -> rounded r X'.
Proof.
  intros E (Y & HY & Hb). exists Y. split; [exact HY|]. now rewrite <- E.
Qed.

(** One operation on primitive floats, through the axioms that relate them
    to [SpecFloat]. *)
Lemma run_op_rounded (y : float) (o : cop) (Y k c g : Q) :
  Prim2Q y = Some Y -> exact_op o = Some (k, c, g) ->
  Qabs (Y * k + c) < overflow_threshold ->
  g == Qabs k /\ rounded (Prim2Q (run_op y o)) (Y * k + c).
Proof.
  intros Hy Ho Hov. rewrite overflow_threshold_eq in Hov.
  unfold Prim2Q in *.
  destruct o as [f | f | f | f]; simpl in Ho; unfold Prim2Q in Ho;
    destruct (SF2Q (Prim2SF f)) as [C|] eqn:Hc; try discriminate Ho;
    simpl in Ho.
  - injection Ho as <- <- <-. split; [reflexivity|].
    assert (E : Y * C == Y * C + 0) by ring.
    apply rounded_ext with (Y * C); [exact E|].
    apply rounds_to_rounded. simpl run_op. rewrite FloatAxioms.mul_spec.
    apply SFmul_rounds; try apply Prim2SF_valid; try assumption.
    now rewrite E.
  - destruct (Qeq_bool C 0) eqn:Z0; [discriminate Ho|].
    injection Ho as <- <- <-. split; [reflexivity|].
    assert (E : Y / C == Y * / C + 0) by (unfold Qdiv; ring).
    apply rounded_ext with (Y / C); [exact E|].
    apply rounds_to_rounded. simpl run_op. rewrite FloatAxioms.div_spec.
    apply SFdiv_rounds; try assumption.
    + intros H. apply Qeq_bool_iff in H. rewrite H in Z0. discriminate Z0.
    + now rewrite E.
  - injection Ho as <- <- <-. split; [reflexivity|].
    assert (E : Y + C == Y * 1 + C) by ring.
    apply rounded_ext with (Y + C); [exact E|].
    apply rounds_to_rounded. simpl run_op. rewrite FloatAxioms.add_spec.
    apply SFadd_rounds; try assumption. now rewrite E.
  - injection Ho as <- <- <-. split; [reflexivity|].
    assert (E : Y - C == Y * 1 + - C) by ring.
    apply rounded_ext with (Y - C); [exact E|].
    apply rounds_to_rounded. simpl run_op. rewrite FloatAxioms.sub_spec.
    apply SFsub_rounds; try assumption. now rewrite E.
Qed.

Lemma step_inv (cap : Q) (a a' : affine) (o : cop) :
  step cap a o = Some a' ->
  exists k c g : Q,
    exact_op o = Some (k, c, g) /\
    Qabs (slope a * k) + rel_err a * g + Qabs (offset a * k + c) +
      abs_err a * g + eta_count a * g <= cap /\
    slope a' == slope a * k /\
    offset a' == offset a * k + c /\
    rel_err a' ==
      rel_err a * g + unit_roundoff * (Qabs (slope a * k) + rel_err a * g) /\
    abs_err a' ==
      abs_err a * g +
      unit_roundoff * (Qabs (offset a * k + c) + abs_err a * g) /\
    eta_count a' ==
      eta_count a * g + unit_roundoff * (eta_count a * g) + 1.
Proof.
  unfold step.
  destruct (exact_op o) as [[[k c] g]|]; [|discriminate].
  cbv zeta.
  destruct (Qle_bool _ cap) eqn:Hov; [|discriminate].
  intros E. apply (f_equal (fun x => match x with Some b => b | None => a end))
    in E. cbv beta iota in E. subst a'. apply Qle_bool_iff in Hov.
  rewrite !Qred_correct in Hov.
  exists k, c, g. split; [reflexivity|]. split; [exact Hov|].
  split; [apply Qred_correct|]. split; [apply Qred_correct|].
  split; [|split].
  - etransitivity; [apply Qred_correct|]. rewrite !Qred_correct.
    reflexivity.
  - etransitivity; [apply Qred_correct|]. rewrite !Qred_correct.
    reflexivity.
  - etransitivity; [apply Qred_correct|]. rewrite !Qred_correct.
    reflexivity.
Qed.

Lemma exact_op_scale (o : cop) (k c g : Q) :
  exact_op o = Some (k, c, g) -> g == Qabs k.
Proof.
  intros Ho.
  destruct o as [x | x | x | x]; simpl in Ho;
    destruct (Prim2Q x) as [C|]; try discriminate Ho; simpl in Ho;
    try (destruct (Qeq_bool C 0); [discriminate Ho|]);
    injection Ho as <- <- <-; reflexivity.
Qed.

Lemma underflow_unit_small : 0 < underflow_unit /\ underflow_unit <= 1.
Proof. split; [reflexivity | discriminate]. Qed.

Section Chain.

Variables cap vmax V : Q.
Hypothesis vmax_1 : 1 <= vmax.
Hypothesis cap_fits : cap * vmax < overflow_threshold.
Hypothesis V_le : Qabs V <= vmax.

(** One operation keeps the bounds true. *)
Lemma step_sound (a a' : affine) (o : cop) (y : float) :
  sound a -> tracks a V y -> step cap a o = Some a' ->
  sound a' /\ tracks a' V (run_op y o).
Proof.
  intros (Hr & Ha & Hn) (Y & Hy & Hb) Hstep.
  destruct (step_inv cap a a' o Hstep)
    as (k & c & g & Ho & Hcap & Es & Ef & Er & Ee & En).
  unfold sound, tracks. rewrite Er, Ee, En.
  setoid_rewrite Es. setoid_rewrite Ef. setoid_rewrite Er.
  setoid_rewrite Ee. setoid_rewrite En.
  clear Es Ef Er Ee En Hstep.
  set (s := slope a) in *. set (f := offset a) in *.
  set (r := rel_err a) in *. set (e := abs_err a) in *.
  set (n := eta_count a) in *.
  destruct underflow_unit_small as [Heta0 Heta1].
  set (eta := underflow_unit) in *.
  pose proof (Qabs_nonneg V) as HV0.
  pose proof (Qabs_nonneg (s * k)) as Hs0.
  pose proof (Qabs_nonneg (f * k + c)) as Hf0.
  pose proof (Qabs_nonneg k) as Hk0.
  assert (Hu : 0 < unit_roundoff) by reflexivity.
  pose proof (exact_op_scale o k c g Ho) as Hg.
  assert (Hg0 : 0 <= g) by (rewrite Hg; exact Hk0).
  assert (Hrg : 0 <= r * g) by (apply Qmult_le_0_compat; assumption).
  assert (Heg : 0 <= e * g) by (apply Qmult_le_0_compat; assumption).
  assert (Hng : 0 <= n * g) by (apply Qmult_le_0_compat; assumption).
  assert (Hne : 0 <= n * eta)
    by (apply Qmult_le_0_compat; [assumption | apply Qlt_le_weak, Heta0]).
  assert (Hnge : n * g * eta <= n * g).
  { rewrite <- (Qmult_1_r (n * g)) at 2.
    rewrite !(Qmult_comm (n * g)).
    apply Qmult_le_compat_r; assumption. }
  assert (Hnge0 : 0 <= n * g * eta)
    by (apply Qmult_le_0_compat; [assumption | apply Qlt_le_weak, Heta0]).
  (* the operation before rounding, against its affine image *)
  assert (F1 : Qabs (Y * k + c - (s * k * V + (f * k + c))) <=
               r * g * Qabs V + e * g + n * g * eta).
  { setoid_replace (Y * k + c - (s * k * V + (f * k + c)))
      with ((Y - (s * V + f)) * k) by ring.
    rewrite Qabs_Qmult, <- Hg.
    setoid_replace (r * g * Qabs V + e * g + n * g * eta)
      with ((r * Qabs V + e + n * eta) * g) by ring.
    apply Qmult_le_compat_r; assumption. }
  assert (F2 : Qabs (s * k * V + (f * k + c)) <=
               Qabs (s * k) * Qabs V + Qabs (f * k + c)).
  { eapply Qle_trans; [apply Qabs_triangle|].
    rewrite Qabs_Qmult. apply Qle_refl. }
  assert (F3 : Qabs (Y * k + c) <=
               Qabs (s * k * V + (f * k + c)) +
               Qabs (Y * k + c - (s * k * V + (f * k + c)))).
  { pose proof (Qabs_triangle (s * k * V + (f * k + c))
                  (Y * k + c - (s * k * V + (f * k + c)))) as T.
    setoid_replace (s * k * V + (f * k + c) +
                    (Y * k + c - (s * k * V + (f * k + c))))
      with (Y * k + c) in T by ring.
    exact T. }
  assert (FX : Qabs (Y * k + c) <=
               (Qabs (s * k) + r * g) * Qabs V +
               (Qabs (f * k + c) + e * g + n * g * eta)) by Lqa.lra.
  assert (Hmono1 : (Qabs (s * k) + r * g) * Qabs V <=
                   (Qabs (s * k) + r * g) * vmax).
  { rewrite (Qmult_comm _ (Qabs V)), (Qmult_comm _ vmax).
    apply Qmult_le_compat_r; [exact V_le | Lqa.lra]. }
  assert (Hmono2 : Qabs (f * k + c) + e * g + n * g <=
                   (Qabs (f * k + c) + e * g + n * g) * vmax).
  { rewrite <- (Qmult_1_r (Qabs (f * k + c) + e * g + n * g)) at 1.
    rewrite !(Qmult_comm (Qabs (f * k + c) + e * g + n * g)).
    apply Qmult_le_compat_r; [exact vmax_1 | Lqa.lra]. }
  assert (Hmono3 : (Qabs (s * k) + r * g + Qabs (f * k + c) + e * g + n * g)
                   * vmax <= cap * vmax).
  { apply Qmult_le_compat_r; [exact Hcap | Lqa.lra]. }
  assert (HX : Qabs (Y * k + c) < overflow_threshold).
  { eapply Qle_lt_trans; [|exact cap_fits]. Lqa.lra. }
  destruct (run_op_rounded y o Y k c g Hy Ho HX) as [_ (Y' & HY' & Hb')].
  fold eta in Hb'. clearbody eta.
  split.
  - unfold unit_roundoff. repeat split; Lqa.lra.
  - exists Y'. split; [exact HY'|].
    assert (F4 : Qabs (Y' - (s * k * V + (f * k + c))) <=
                 Qabs (Y' - (Y * k + c)) +
                 Qabs (Y * k + c - (s * k * V + (f * k + c)))).
    { pose proof (Qabs_triangle (Y' - (Y * k + c))
                    (Y * k + c - (s * k * V + (f * k + c)))) as T.
      setoid_replace (Y' - (Y * k + c) +
                      (Y * k + c - (s * k * V + (f * k + c))))
        with (Y' - (s * k * V + (f * k + c))) in T by ring.
      exact T. }
    assert (F5 : unit_roundoff * Qabs (Y * k + c) <=
                 unit_roundoff *
                   ((Qabs (s * k) + r * g) * Qabs V +
                    (Qabs (f * k + c) + e * g + n * g * eta))).
    { rewrite !(Qmult_comm unit_roundoff).
      apply Qmult_le_compat_r; [exact FX | apply Qlt_le_weak, Hu]. }
    Lqa.lra.
Qed.

Lemma steps_sound (ops : list cop) :
  forall (a a' : affine) (y : float),
    sound a -> tracks a V y -> steps cap a ops = Some a' ->
    sound a' /\ tracks a' V (run_ops ops y).
Proof.
  induction ops as [|o more IH]; intros a a' y Hs Ht; simpl.
  - intros E. apply (f_equal (fun x => match x with Some b => b | None => a end))
      in E. cbv beta iota in E. subst a'. split; assumption.
  - destruct (step cap a o) as [a1|] eqn:E1; [|discriminate].
    destruct (step_sound a a1 o y Hs Ht E1) as [Hs1 Ht1].
    apply IH; assumption.
Qed.

(** A chain that passes the check is as accurate as the check says. *)
Lemma accurate_within_sound (rel_tol main_tol budget abs_tol sx ox : Q)
    (ops : list cop) (v : float) :
  main_tol + budget * underflow_unit <= abs_tol ->
  accurate_within cap rel_tol main_tol budget ops sx ox = true ->
  Prim2Q v = Some V ->
  exists Y : Q,
    Prim2Q (run_ops ops v) = Some Y /\
    Qabs (Y - (sx * V + ox)) <= rel_tol * Qabs V + abs_tol.
Proof.
  unfold accurate_within. intros Htol H Hv.
  destruct (steps cap identity_map ops) as [a|] eqn:E; [|discriminate H].
  apply andb_true_iff in H as [H H3]. apply andb_true_iff in H as [H1 H2].
  apply Qle_bool_iff in H1, H2, H3.
  assert (Hs : sound identity_map) by (repeat split; apply Qle_refl).
  assert (Ht : tracks identity_map V v).
  { exists V. split; [exact Hv|].
    change (Qabs (V - (1 * V + 0)) <= 0 * Qabs V + 0 + 0 * underflow_unit).
    setoid_replace (V - (1 * V + 0)) with 0 by ring.
    setoid_replace (0 * Qabs V + 0 + 0 * underflow_unit) with 0 by ring.
    apply Qle_refl. }
  destruct (steps_sound ops identity_map a v Hs Ht E)
    as [(Hr & Ha & Hn) (Y & HY & Hb)].
  exists Y. split; [exact HY|].
  pose proof (Qabs_triangle (Y - (slope a * V + offset a))
                ((slope a - sx) * V + (offset a - ox))) as T1.
  setoid_replace (Y - (slope a * V + offset a) +
                  ((slope a - sx) * V + (offset a - ox)))
    with (Y - (sx * V + ox)) in T1 by ring.
  pose proof (Qabs_triangle ((slope a - sx) * V) (offset a - ox)) as T2.
  rewrite Qabs_Qmult in T2.
  pose proof (Qabs_nonneg V) as HV0.
  assert (T3 : (Qabs (slope a - sx) + rel_err a) * Qabs V <=
               rel_tol * Qabs V)
    by (apply Qmult_le_compat_r; assumption).
  destruct underflow_unit_small as [Heta0 _].
  assert (T4 : eta_count a * underflow_unit <= budget * underflow_unit)
    by (apply Qmult_le_compat_r; [assumption | apply Qlt_le_weak, Heta0]).
  revert Htol Hb T4. generalize underflow_unit. intros eta Htol Hb T4.
  Lqa.lra.
Qed.

(** A chain that passes the check brings every input back. *)
Lemma returns_within_sound (rel_tol main_tol budget abs_tol : Q)
    (ops : list cop) (v : float) :
  main_tol + budget * underflow_unit <= abs_tol ->
  returns_within cap rel_tol main_tol budget ops = true ->
  Prim2Q v = Some V ->
  exists Y : Q,
    Prim2Q (run_ops ops v) = Some Y /\
    Qabs (Y - V) <= rel_tol * Qabs V + abs_tol.
Proof.
  intros Htol H Hv.
  destruct (accurate_within_sound rel_tol main_tol budget abs_tol 1 0 ops v
              Htol H Hv) as (Y & HY & Hb).
  exists Y. split; [exact HY|].
  setoid_replace (Y - V) with (Y - (1 * V + 0)) by ring. exact Hb.
Qed.

End Chain.

End Rounding.

(** ** The round trip in binary64 *)

Lemma float_val_Prim2Q (x : float) (v : Q) :
  float_val x = Some v -> exists V : Q, Prim2Q x = Some V /\ v = Qred V.
Proof.
  unfold float_val. destruct (Prim2Q x) as [V|]; [|discriminate].
  intros E. exists V. split; [reflexivity|].
  apply (f_equal (fun o => match o with Some q => q | None => v end)) in E.
  symmetry. exact E.
Qed.

(** Inputs up to 1e280 fit the cap, and the budget of underflow errors
    fits the two floors. *)
Lemma round_trip_parameters :
  (1 <= 1e280)%Q /\ (magnitude_cap * 1e280 < overflow_threshold)%Q /\
  (0 + underflow_budget * underflow_unit <= 1e-300)%Q /\
  (9e-13 + underflow_budget * underflow_unit <= 1e-12)%Q.
Proof.
  split; [vm_compute; discriminate|].
  split; [vm_compute; reflexivity|].
  split; vm_compute; discriminate.
Qed.

(** A checked chain of operations, said of the values in lowest terms. *)
Lemma accurate_within_val (rel_tol main_tol abs_tol sx ox : Q)
    (ops : list cop) (value : float) (v : Q) :
  (main_tol + underflow_budget * underflow_unit <= abs_tol)%Q ->
  accurate_within magnitude_cap rel_tol main_tol underflow_budget ops sx ox
    = true ->
  float_val value = Some v -> (Qabs v <= 1e280)%Q ->
  exists w : Q,
    float_val (run_ops ops value) = Some w /\
    (Qabs (w - (sx * v + ox)) <= rel_tol * Qabs v + abs_tol)%Q.
Proof.
  intros Htol Hc Hv Hb.
  destruct (float_val_Prim2Q value v Hv) as (V & HV & ->).
  rewrite Qred_correct in Hb.
  destruct round_trip_parameters as (P1 & P2 & _).
  destruct (accurate_within_sound magnitude_cap 1e280 V P1 P2 Hb
              rel_tol main_tol underflow_budget abs_tol sx ox ops value
              Htol Hc HV)
    as (Y & HY & HYb).
  exists (Qred Y). split.
  - unfold float_val. rewrite HY. reflexivity.
  - rewrite !Qred_correct. exact HYb.
Qed.

Lemma returns_within_val (main_tol abs_tol : Q) (ops : list cop)
    (value : float) (v : Q) :
  (main_tol + underflow_budget * underflow_unit <= abs_tol)%Q ->
  returns_within magnitude_cap 1e-15 main_tol underflow_budget ops = true ->
  float_val value = Some v -> (Qabs v <= 1e280)%Q ->
  exists w : Q,
    float_val (run_ops ops value) = Some w /\
    (Qabs (w - v) <= 1e-15 * Qabs v + abs_tol)%Q.
Proof.
  intros Htol Hc Hv Hb.
  destruct (accurate_within_val 1e-15 main_tol abs_tol 1 0 ops value v
              Htol Hc Hv Hb) as (w & Hw & Hbw).
  exists w. split; [exact Hw|].
  setoid_replace (w - v)%Q with (w - (1 * v + 0))%Q by ring. exact Hbw.
Qed.

(** The two scale ratios of every pair of rows of one family undo each
    other within the tolerance, for inputs up to 1e280. *)
Lemma scale_round_trips_checked :
  forallb
    (fun a : UnitTable float =>
       forallb
         (fun b : UnitTable float =>
            if (UnitType_val (type a) =? UnitType_val (type b)) &&
               negb (UnitType_val (type a) =? 0)
            then
              returns_within magnitude_cap 1e-15 0 underflow_budget
                [MulC (PrimFloat.div (conversion_factor a)
                                     (conversion_factor b));
                 MulC (PrimFloat.div (conversion_factor b)
                                     (conversion_factor a))]
            else true)
         unit_table)
    unit_table = true.
Proof. vm_compute. reflexivity. Qed.

(** So does each of the six temperature formulas followed by its
    converse. *)
Lemma temperature_round_trips_checked :
  forallb (returns_within magnitude_cap 1e-15 9e-13 underflow_budget)
    [[MulC (dlit 9); DivC (dlit 5); AddC (dlit 32);
      SubC (dlit 32); MulC (dlit 5); DivC (dlit 9)];
     [AddC (dlit 273.15); SubC (dlit 273.15)];
     [SubC (dlit 32); MulC (dlit 5); DivC (dlit 9);
      MulC (dlit 9); DivC (dlit 5); AddC (dlit 32)];
     [SubC (dlit 32); MulC (dlit 5); DivC (dlit 9); AddC (dlit 273.15);
      SubC (dlit 273.15); MulC (dlit 9); DivC (dlit 5); AddC (dlit 32)];
     [SubC (dlit 273.15); AddC (dlit 273.15)];
     [SubC (dlit 273.15); MulC (dlit 9); DivC (dlit 5); AddC (dlit 32);
      SubC (dlit 32); MulC (dlit 5); DivC (dlit 9); AddC (dlit 273.15)]]
  = true.
Proof. vm_compute. reflexivity. Qed.

Lemma temperature_round_trip_binary64 (value : float) (v : Q) (A B : Unit) :
  (A = CELSIUS \/ A = FAHRENHEIT \/ A = KELVIN) ->
  (B = CELSIUS \/ B = FAHRENHEIT \/ B = KELVIN) ->
  A <> B ->
  float_val value = Some v -> (Qabs v <= 1e280)%Q ->
  exists (back : float) (w : Q),
    round_trip value A B = Return back /\ float_val back = Some w /\
    (Qabs (w - v) <= 1e-15 * Qabs v + 1e-12)%Q.
Proof.
  intros HA HB Hne Hv Hb.
  pose proof temperature_round_trips_checked as Hc.
  rewrite forallb_forall in Hc.
  assert (Hrun : forall ops : list cop,
            In ops
              [[MulC (dlit 9); DivC (dlit 5); AddC (dlit 32);
                SubC (dlit 32); MulC (dlit 5); DivC (dlit 9)];
               [AddC (dlit 273.15); SubC (dlit 273.15)];
               [SubC (dlit 32); MulC (dlit 5); DivC (dlit 9);
                MulC (dlit 9); DivC (dlit 5); AddC (dlit 32)];
               [SubC (dlit 32); MulC (dlit 5); DivC (dlit 9);
                AddC (dlit 273.15);
                SubC (dlit 273.15); MulC (dlit 9); DivC (dlit 5);
                AddC (dlit 32)];
               [SubC (dlit 273.15); AddC (dlit 273.15)];
               [SubC (dlit 273.15); MulC (dlit 9); DivC (dlit 5);
                AddC (dlit 32);
                SubC (dlit 32); MulC (dlit 5); DivC (dlit 9);
                AddC (dlit 273.15)]] ->
            exists w : Q,
              float_val (run_ops ops value) = Some w /\
              (Qabs (w - v) <= 1e-15 * Qabs v + 1e-12)%Q).
  { intros ops Hin.
    exact (returns_within_val 9e-13 1e-12 ops value v
             (proj2 (proj2 (proj2 round_trip_parameters)))
             (Hc ops Hin) Hv Hb). }
  clear Hc.
  destruct HA as [-> | [-> | ->]]; destruct HB as [-> | [-> | ->]];
    try (now elim Hne).
  - destruct (Hrun _ (or_introl eq_refl)) as (w & Hw & Hbw).
    match type of Hw with float_val ?y = _ => exists y, w end.
    split; [reflexivity | split; assumption].
  - destruct (Hrun _ (or_intror (or_introl eq_refl))) as (w & Hw & Hbw).
    match type of Hw with float_val ?y = _ => exists y, w end.
    split; [reflexivity | split; assumption].
  - destruct (Hrun _ (or_intror (or_intror (or_introl eq_refl))))
      as (w & Hw & Hbw).
    match type of Hw with float_val ?y = _ => exists y, w end.
    split; [reflexivity | split; assumption].
  - destruct (Hrun _ (or_intror (or_intror (or_intror (or_introl eq_refl)))))
      as (w & Hw & Hbw).
    match type of Hw with float_val ?y = _ => exists y, w end.
    split; [reflexivity | split; assumption].
  - destruct (Hrun _ (or_intror (or_intror (or_intror
                        (or_intror (or_introl eq_refl))))))
      as (w & Hw & Hbw).
    match type of Hw with float_val ?y = _ => exists y, w end.
    split; [reflexivity | split; assumption].
  - destruct (Hrun _ (or_intror (or_intror (or_intror
                        (or_intror (or_intror (or_introl eq_refl)))))))
      as (w & Hw & Hbw).
    match type of Hw with float_val ?y = _ => exists y, w end.
    split; [reflexivity | split; assumption].
Qed.

Lemma scale_round_trip_binary64 (value : float) (v : Q) (A B : Unit)
    (a b : UnitTable float) :
  registered A a -> registered B b -> A <> B ->
  type a = type b -> type a <> TEMPERATURE ->
  float_val value = Some v -> (Qabs v <= 1e280)%Q ->
  exists (back : float) (w : Q),
    round_trip value A B = Return back /\ float_val back = Some w /\
    (Qabs (w - v) <= 1e-15 * Qabs v + 1e-300)%Q.
Proof.
  intros Ra Rb Hne Hty Ta Hv Hb.
  pose proof (registered_table_at Ra) as Ha.
  pose proof (registered_table_at Rb) as Hb'.
  assert (Tb : type b <> TEMPERATURE) by congruence.
  pose proof scale_round_trips_checked as Hc.
  rewrite forallb_forall in Hc. specialize (Hc a (proj1 Ra)).
  cbv beta in Hc.
  rewrite forallb_forall in Hc. specialize (Hc b (proj1 Rb)).
  cbv beta in Hc.
  rewrite Hty, Z.eqb_refl in Hc.
  assert (E : (UnitType_val (type b) =? 0) = false).
  { apply Z.eqb_neq. intros E. apply Tb.
    exact (UnitType_val_inj _ TEMPERATURE E). }
  rewrite E in Hc. simpl negb in Hc. cbv iota in Hc.
  destruct (returns_within_val 0 1e-300 _ value v
              (proj1 (proj2 (proj2 round_trip_parameters))) Hc Hv Hb)
    as (w & Hw & Hbw).
  exists (run_ops
            [MulC (PrimFloat.div (conversion_factor a) (conversion_factor b));
             MulC (PrimFloat.div (conversion_factor b) (conversion_factor a))]
            value), w.
  split; [|split; assumption].
  unfold round_trip.
  rewrite (convertUnit_default_ratio value Ha Hb' Hne Hty Ta). simpl bind.
  rewrite (convertUnit_default_ratio _ Hb' Ha (not_eq_sym Hne)
             (eq_sym Hty) Tb).
  reflexivity.
Qed.

(** C6, as the code has it: inside one family both legs of a round trip
    return a value, whatever the arithmetic; and in binary64 a finite value
    of magnitude up to 1e280 comes back as a finite value within
    [1e-15 * |v|] of [v], up to an absolute floor of 1e-300 in the ratio
    families and of 1e-12 for the temperature formulas. *)
Theorem round_trip_same_family :
  (forall (D : Type) (ops : Double D) (value : D) (A B : Unit)
          (a b : UnitTable D),
     registered A a -> registered B b -> type a = type b ->
     exists there back,
       convertUnit value A B = Return there /\
       convertUnit there B A = Return back) /\
  (forall (value : float) (v : Q) (A B : Unit) (a b : UnitTable float),
     registered A a -> registered B b -> type a = type b ->
     float_val value = Some v -> (Qabs v <= 1e280)%Q ->
     exists (back : float) (w : Q),
       round_trip value A B = Return back /\ float_val back = Some w /\
       (Qabs (w - v) <= 1e-15 * Qabs v + round_trip_floor (type a))%Q).
Proof.
  split; [intros D ops; apply round_trip_returns|].
  intros value v A B a b Ra Rb Hty Hv Hb.
  destruct (Z.eq_dec (Unit_val A) (Unit_val B)) as [E | N].
  - apply Unit_val_inj in E. subst B. exists value, v.
    split; [|split; [exact Hv|]].
    + unfold round_trip. rewrite convertUnit_same_unit. simpl.
      apply convertUnit_same_unit.
    + setoid_replace (v - v)%Q with 0%Q by ring.
      assert (H1 : (0 <= 1e-15 * Qabs v)%Q)
        by (apply Qmult_le_0_compat; [discriminate | apply Qabs_nonneg]).
      assert (H2 : (0 <= round_trip_floor (type a))%Q)
        by (destruct (type a); discriminate).
      change (Qabs 0) with 0%Q.
      revert H1 H2. generalize (1e-15 * Qabs v)%Q (round_trip_floor (type a)).
      intros p f H1 H2. Lqa.lra.
  - assert (Hne : A <> B) by congruence.
    destruct (UnitType_val (type a) =? 0) eqn:T.
    + apply Z.eqb_eq, (UnitType_val_inj _ TEMPERATURE) in T.
      rewrite T. simpl round_trip_floor.
      apply temperature_round_trip_binary64; trivial.
      * apply (temperature_units _ (registered_table_at Ra)), T.
      * apply (temperature_units _ (registered_table_at Rb)). congruence.
    + assert (Ta : type a <> TEMPERATURE)
        by (intros T'; rewrite T' in T; discriminate T).
      replace (round_trip_floor (type a)) with 1e-300%Q
        by (destruct (type a); [now elim Ta | reflexivity ..]).
      now apply scale_round_trip_binary64 with (a := a) (b := b).
Qed.

Set Implicit Arguments.

(** C6 fails in binary64: 1e-20 Celsius becomes exactly 273.15 Kelvin and
    comes back as 0; 0 Fahrenheit comes back from Kelvin as about 1.07e-14;
    1e300 bytes overflow to infinity on the way to exabytes and stay there;
    the smallest positive double, taken as exabytes, underflows to 0 on the
    way to bytes. None of the four results is within 1e-9 of the finite
    value that went in. *)
Lemma round_trip_binary64_loses_value :
  is_finite 1e-20 = true /\
  convertUnit 1e-20%float CELSIUS KELVIN = Return 273.15%float /\
  round_trip 1e-20%float CELSIUS KELVIN = Return 0%float /\
  within_tolerance 1e-9 1e-20 0 = false /\
  round_trip 0%float FAHRENHEIT KELVIN = Return 0x1.8p-47%float /\
  within_tolerance 1e-9 0 0x1.8p-47 = false /\
  is_finite 1e300 = true /\
  round_trip 1e300%float BYTES EXABYTES = Return infinity /\
  within_tolerance 1e-9 1e300 infinity = false /\
  is_finite 0x1p-1074 = true /\
  round_trip 0x1p-1074%float EXABYTES BYTES = Return 0%float /\
  within_tolerance 1e-9 0x1p-1074 0 = false.
Proof. repeat split; vm_compute; reflexivity. Qed.

(** ** The theorems at work on concrete inputs *)

Ltac row_at i :=
  split; [apply (nth_error_In _ i); reflexivity | reflexivity].

(** 5 pounds to grams goes through the ratio of the two table factors. *)
Lemma convertUnit_ratio_pounds_grams :
  convertUnit 5%float POUNDS GRAMS =
    Return (5 * (0.00220462 / 1))%float.
Proof.
  change (convertUnit 5%float POUNDS GRAMS =
          Return (5%float *
                  (conversion_factor
                         (row MASS POUNDS "pounds" (dlit 0.00220462)) /
                       conversion_factor
                         (row MASS GRAMS "grams" (dlit 1.0))))%D).
  apply convertUnit_ratio.
  - row_at 27%nat.
  - row_at 20%nat.
  - discriminate.
  - reflexivity.
  - discriminate.
Defined.

(** Celsius to meters is rejected although CELSIUS falls through the
    FAHRENHEIT and KELVIN labels. *)
Lemma convertUnit_incompatible_celsius_meters :
  convertUnit 1%float CELSIUS METERS = IncompatibleFamilies.
Proof.
  apply (proj1 (convertUnit_incompatible 1%float CELSIUS METERS))
    with (f := row TEMPERATURE CELSIUS "celsius" (dlit 0))
         (t := row LENGTH METERS "meters" (dlit 1.0)).
  - row_at 0%nat.
  - row_at 3%nat.
  - discriminate.
Defined.

(** 3 feet come back from miles as 2.9999999999999996 feet, within the
    tolerance. *)
Lemma round_trip_feet_miles :
  exists (back : float) (w : Q),
    round_trip 3%float FEET MILE = Return back /\ float_val back = Some w /\
    (Qabs (w - 3) <= 1e-15 * Qabs 3 + round_trip_floor LENGTH)%Q.
Proof.
  apply (proj2 round_trip_same_family)
    with (a := row LENGTH FEET "feet" (dlit 3.28084))
         (b := row LENGTH MILE "miles" (dlit 0.000621371)).
  - row_at 12%nat.
  - row_at 10%nat.
  - reflexivity.
  - vm_compute. reflexivity.
  - vm_compute. discriminate.
Defined.

(** "kelvin" (row 2) and "petabytes" (row 34) differ, and "kelvin" is found
    again as KELVIN. *)
Lemma unit_table_names_unique_kelvin :
  strcasecmp "kelvin" "petabytes" <> 0 /\
  matchArgument (D:=float) "kelvin" = Some KELVIN.
Proof.
  destruct (unit_table_names_unique (D:=float)) as (Hdiff & _ & Hfind).
  split.
  - apply (Hdiff 2%nat 34%nat
             (row TEMPERATURE KELVIN "kelvin" (dlit 0))
             (row DIGITAL PETABYTES "petabytes"
                (dlit 1.0 / dlit 1125899906842624.0)%D)).
    + reflexivity.
    + reflexivity.
    + discriminate.
  - apply (Hfind (row TEMPERATURE KELVIN "kelvin" (dlit 0))).
    apply (nth_error_In _ 2%nat). reflexivity.
Defined.

(** With no [-r] option, "1 from kilometers to meters" and "1 from meters to
    kilometers" both compute [convertUnit(1, METERS, KILOMETERS)], 1000. *)
Lemma main_convert_kilometers_meters :
  main_convert (fun _ x => x) (-1) 1%float "kilometers" "meters" =
    Return 1000%float /\
  main_convert (fun _ x => x) (-1) 1%float "meters" "kilometers" =
    Return 1000%float.
Proof.
  destruct (main_convert_direction (D:=float) (fun _ x => x) (-1) 1%float
              "kilometers" "meters" (A := KILOMETERS) (B := METERS)
              eq_refl eq_refl) as (_ & _ & Hsym).
  split; [|rewrite <- Hsym]; vm_compute; reflexivity.
Defined.

(** ** The command line: [isNumeric] *)

Lemma isdigit_not_dot (c : Z) : isdigit c = true -> c <> 46.
Proof. unfold isdigit. intros H. apply andb_true_iff in H as [H _]. lia. Qed.

(** The loop accepts exactly the digit-and-dot sequences with no more dots
    than [dotCount] still allows. *)
Lemma isNumeric_loop_spec (chars : list Z) (dotCount : Z) :
  isNumeric_loop chars dotCount = true <->
  Forall (fun c => isdigit c = true \/ c = 46) chars /\
  (count_occ Z.eq_dec chars 46%Z <=
     if (dotCount =? 0)%Z then 1 else 0)%nat.
Proof.
  revert dotCount. induction chars as [|c rest IH]; intros dotCount; simpl.
  - split; [intros _; split; [constructor | destruct (dotCount =? 0); lia]
           | reflexivity].
  - destruct (isdigit c) eqn:Dg; simpl.
    + pose proof (isdigit_not_dot Dg) as Nd.
      destruct (Z.eq_dec c 46) as [E | _]; [contradiction|].
      rewrite IH. split.
      * intros [F Cn]. split; [constructor; auto | exact Cn].
      * intros [F Cn]. inversion F; subst. split; assumption.
    + destruct (Z.eqb_spec c 46) as [-> | Nd]; simpl.
      * destruct (Z.eq_dec 46 46) as [_ | N]; [|contradiction].
        destruct (Z.eqb_spec dotCount 0) as [-> | Nz].
        -- rewrite IH. simpl. split.
           ++ intros [F Cn]. split; [constructor; auto | lia].
           ++ intros [F Cn]. inversion F; subst. split; [assumption | lia].
        -- split; [discriminate | intros [_ Cn]; lia].
      * split; [discriminate|]. intros [F _]. inversion F; subst.
        destruct H1 as [H | H]; [congruence | contradiction].
Qed.

(** X1: [isNumeric] accepts exactly the non-empty strings made of an
    optional leading '+' or '-' followed by decimal digits with at most one
    '.' among them, anywhere; nothing requires a digit to be present. *)
Theorem isNumeric_spec (str : string) :
  isNumeric str = true <->
  exists sign body : list Z,
    c_str str = (sign ++ body)%list /\ c_str str <> [] /\
    (sign = [] \/ sign = [45] \/ sign = [43]) /\
    Forall (fun c => isdigit c = true \/ c = 46) body /\
    (count_occ Z.eq_dec body 46%Z <= 1)%nat.
Proof.
  unfold isNumeric. destruct (c_str str) as [|c0 rest].
  - split; [discriminate|]. intros (sign & body & _ & N & _). now elim N.
  - split.
    + intros H.
      destruct (Z.eqb_spec c0 45) as [-> | N45];
        [|destruct (Z.eqb_spec c0 43) as [-> | N43]]; cbn [orb] in H;
        apply isNumeric_loop_spec in H as [F Cn].
      * exists [45], rest. repeat split; auto. discriminate.
      * exists [43], rest. repeat split; auto. discriminate.
      * exists [], (c0 :: rest). repeat split; auto. discriminate.
    + intros (sign & body & E & _ & Hs & F & Cn).
      assert (Hbody : forall c l, body = c :: l -> c <> 45 /\ c <> 43).
      { intros c l ->. inversion F; subst.
        destruct H1 as [H | ->]; [|lia].
        unfold isdigit in H. apply andb_true_iff in H as [H _]. lia. }
      destruct Hs as [-> | [-> | ->]]; simpl in E.
      * destruct (Hbody c0 rest (eq_sym E)) as [N45 N43].
        apply Z.eqb_neq in N45, N43. rewrite N45, N43. cbn [orb].
        apply isNumeric_loop_spec. rewrite E. split; assumption.
      * injection E as -> ->. change (isNumeric_loop body 0 = true).
        apply isNumeric_loop_spec. split; assumption.
      * injection E as -> ->. change (isNumeric_loop body 0 = true).
        apply isNumeric_loop_spec. split; assumption.
Qed.

(** ** The command line: unit names *)

Section Names.

Context {D : Type} {ops : Double D}.

Lemma strcasecmp_same_case (a b n : string) :
  map tolower (c_str a) = map tolower (c_str b) ->
  (strcasecmp a n =? 0) = (strcasecmp b n =? 0).
Proof.
  intros E.
  destruct (Z.eqb_spec (strcasecmp a n) 0) as [Ha | Ha];
    destruct (Z.eqb_spec (strcasecmp b n) 0) as [Hb | Hb];
    try reflexivity; exfalso;
    rewrite strcasecmp_eq_0 in Ha, Hb; congruence.
Qed.

Lemma matchArgument_from_same_case (rows : list (UnitTable D))
    (a b : string) :
  map tolower (c_str a) = map tolower (c_str b) ->
  matchArgument_from rows a = matchArgument_from rows b.
Proof.
  intros E. induction rows as [|r rest IH]; simpl; [reflexivity|].
  now rewrite (strcasecmp_same_case a b (name r) E), IH.
Qed.

(** Every name of the table is in lower case. *)
Lemma unit_table_lower_case (d : UnitTable D) :
  In d unit_table -> map tolower (c_str (name d)) = c_str (name d).
Proof.
  unfold unit_table. simpl In. intros H.
  repeat (destruct H as [<- | H]; [reflexivity|]).
  contradiction.
Qed.

(** "from" and "to", in any case, are not unit names. *)
Lemma keyword_not_unit (arg : string) :
  strcasecmp arg "from" = 0 \/ strcasecmp arg "to" = 0 ->
  matchArgument (D:=D) arg = None.
Proof.
  intros [H | H]; apply strcasecmp_eq_0 in H; unfold matchArgument;
    rewrite (matchArgument_from_same_case _ _ _ H); reflexivity.
Qed.

(** X2: two arguments that differ only in the case of their letters are
    resolved alike by [matchArgument], found or not. *)
Theorem matchArgument_same_case (a b : string) :
  map tolower (c_str a) = map tolower (c_str b) ->
  matchArgument (D:=D) a = matchArgument (D:=D) b.
Proof. apply matchArgument_from_same_case. Qed.

(** X3: when [matchArgument] finds a unit, the name stored in the table row
    of that unit, which is the name the result line prints, is the argument
    with its letters in lower case. *)
Theorem matchArgument_name (arg : string) (u : Unit) :
  matchArgument (D:=D) arg = Some u ->
  exists d : UnitTable D,
    table_at u = Some d /\ c_str (name d) = map tolower (c_str arg).
Proof.
  intros H. apply matchArgument_from_Some in H
    as (i & d & Hi & Hz & Hu & _).
  pose proof (nth_error_In _ _ Hi) as Hin.
  exists d. split.
  - apply registered_table_at. split; assumption.
  - apply strcasecmp_eq_0 in Hz.
    now rewrite <- (unit_table_lower_case Hin).
Qed.

End Names.

(** ** The command line: [main] *)

Section CommandLine.

Context {D : Type} {ops : Double D}.

Variable atof : string -> D.
Variable atoi : string -> Z.
Variable round_to : Z -> D -> D.

Lemma argv_at_app (pre l : list string) (j : Z) :
  0 <= j ->
  argv_at (pre ++ l)%list (Z.of_nat (List.length pre) + j) = argv_at l j.
Proof.
  intros Hj. unfold argv_at.
  destruct (Z.ltb_spec (Z.of_nat (List.length pre) + j) 0) as [L | _];
    [lia|].
  destruct (Z.ltb_spec j 0) as [L | _]; [lia|].
  rewrite Z2Nat.inj_add, Nat2Z.id by lia.
  rewrite nth_error_app2 by lia. f_equal. lia.
Qed.

(** The positions the keyword loop leaves are -1 or non-negative. *)
Lemma keyword_loop_range (l : list string) (n : nat) (i fp tp f t : Z) :
  0 <= i -> -1 <= fp -> -1 <= tp ->
  keyword_loop l n i fp tp = Some (f, t) -> -1 <= f /\ -1 <= t.
Proof.
  revert i fp tp. induction n as [|n IH]; intros i fp tp Hi Hf Ht; simpl.
  - intros [= <- <-]. split; assumption.
  - destruct (argv_at l i) as [arg|]; [|discriminate].
    destruct (strcasecmp arg "from" =? 0);
      [|destruct (strcasecmp arg "to" =? 0)];
      apply IH; lia.
Qed.

(** Arguments in front of the scanned ones only shift the positions. *)
Lemma keyword_loop_shift (pre l : list string) (n : nat) (i fp tp : Z) :
  let o := Z.of_nat (List.length pre) in
  let sh := fun x => if x =? -1 then -1 else o + x in
  0 <= i ->
  keyword_loop (pre ++ l)%list n (o + i) (sh fp) (sh tp) =
  option_map (fun p => (sh (fst p), sh (snd p))) (keyword_loop l n i fp tp).
Proof.
  intros o sh. revert i fp tp.
  induction n as [|n IH]; intros i fp tp Hi; simpl; [reflexivity|].
  unfold o at 1. rewrite argv_at_app by assumption. fold o.
  destruct (argv_at l i) as [arg|]; [|reflexivity].
  assert (E : o + i + 1 = o + (i + 1)) by lia.
  assert (S : sh (i + 1) = o + (i + 1))
    by (unfold sh; destruct (Z.eqb_spec (i + 1) (-1)); lia).
  rewrite E.
  destruct (strcasecmp arg "from" =? 0);
    [|destruct (strcasecmp arg "to" =? 0)].
  - rewrite <- S at 2. apply IH. lia.
  - rewrite <- S at 2. apply IH. lia.
  - apply IH. lia.
Qed.

(** The arguments in front of [argv[optind]] do not matter. *)
Lemma convert_command_shift (round_places : Z)
    (pre rest : list string) :
  convert_command atof round_to round_places (pre ++ rest)%list
    (Z.of_nat (List.length pre)) =
  convert_command atof round_to round_places rest 0.
Proof.
  unfold convert_command.
  set (o := Z.of_nat (List.length pre)).
  rewrite length_app, Nat2Z.inj_add. fold o.
  replace (o + 5 =? o + Z.of_nat (List.length rest))
    with (0 + 5 =? Z.of_nat (List.length rest))
    by (destruct (Z.eqb_spec (0 + 5) (Z.of_nat (List.length rest)));
        destruct (Z.eqb_spec (o + 5) (o + Z.of_nat (List.length rest)));
        try reflexivity; lia).
  destruct (negb (0 + 5 =? Z.of_nat (List.length rest))); [reflexivity|].
  replace o with (o + 0) at 1 by lia. unfold o at 1.
  rewrite argv_at_app by lia.
  destruct (argv_at rest 0) as [arg0|]; [|reflexivity].
  destruct (negb (isNumeric arg0)); [reflexivity|].
  replace (o + Z.of_nat (List.length rest) - 1 - (o + 1))
    with (Z.of_nat (List.length rest) - 1 - (0 + 1)) by lia.
  set (n := Z.to_nat (Z.of_nat (List.length rest) - 1 - (0 + 1))).
  pose proof (@keyword_loop_shift pre rest n (0 + 1) (-1) (-1)) as Hs.
  cbv zeta beta in Hs. fold o in Hs.
  change (if -1 =? -1 then -1 else o + -1) with (-1) in Hs.
  change (o + (0 + 1)) with (o + 1) in Hs.
  rewrite Hs by lia. clear Hs.
  destruct (keyword_loop rest n (0 + 1) (-1) (-1)) as [[fp tp]|] eqn:K;
    [|reflexivity].
  apply keyword_loop_range in K as [Hf Ht]; try lia.
  simpl option_map. cbv beta. simpl fst. simpl snd.
  destruct (Z.eqb_spec fp (-1)) as [-> | Nf].
  { reflexivity. }
  destruct (Z.eqb_spec tp (-1)) as [-> | Nt].
  { simpl. rewrite orb_true_r. reflexivity. }
  destruct (Z.eqb_spec (o + fp) (-1)) as [E | _]; [lia|].
  destruct (Z.eqb_spec (o + tp) (-1)) as [E | _]; [lia|].
  unfold o. rewrite !argv_at_app by lia. reflexivity.
Qed.

(** One turn of the keyword loop. *)
Lemma keyword_loop_S (argv : list string) (n : nat) (i fp tp : Z)
    (arg : string) :
  argv_at argv i = Some arg ->
  keyword_loop argv (S n) i fp tp =
    if strcasecmp arg "from" =? 0
    then keyword_loop argv n (i + 1) (i + 1) tp
    else if strcasecmp arg "to" =? 0
    then keyword_loop argv n (i + 1) fp (i + 1)
    else keyword_loop argv n (i + 1) fp tp.
Proof. intros H. simpl. now rewrite H. Qed.

(** A string is not both keywords. *)
Lemma from_not_to (arg : string) :
  (strcasecmp arg "from" =? 0) = true -> (strcasecmp arg "to" =? 0) = false.
Proof.
  intros H. apply Z.eqb_eq, strcasecmp_eq_0 in H.
  apply Z.eqb_neq. intros T. apply strcasecmp_eq_0 in T.
  rewrite H in T. discriminate T.
Qed.

(** What [convertUnit] can leave behind. *)
Lemma convertUnit_outcome (value : D) (from to : Unit) :
  (exists x, convertUnit value from to = Return x) \/
  convertUnit value from to = IncompatibleFamilies.
Proof.
  destruct (convertUnit_cases value from to) as [Hx | [_ ->]]; [now left|].
  destruct (table_at_total (D:=D) from) as [f [Hf _]].
  destruct (table_at_total (D:=D) to) as [t [Ht _]].
  rewrite (at_default_spec value _ _ Hf Ht).
  destruct (negb (UnitType_val (type f) =? UnitType_val (type t)));
    [now right | left; eauto].
Qed.

(** With both names resolved, lines 189-219 print the result line or stop
    at the exit of [convertUnit]; with a name unresolved they report invalid
    units. *)
Lemma convert_and_print_outcome (round_places : Z) (value : D)
    (fromArg toArg : string) :
  exists events status,
    convert_and_print round_to round_places value fromArg toArg =
      Ended events status /\ (status = 0 \/ status = 1).
Proof.
  unfold convert_and_print, main_convert.
  destruct (matchArgument (D:=D) fromArg) as [from|] eqn:Mf;
    [|eexists _, _; split; [reflexivity | now right]].
  destruct (matchArgument (D:=D) toArg) as [to|] eqn:Mt;
    [|eexists _, _; split; [reflexivity | now right]].
  destruct (table_at_total (D:=D) from) as [f [Hf _]].
  destruct (table_at_total (D:=D) to) as [t [Ht _]].
  unfold table_name. rewrite Hf, Ht. simpl option_map.
  destruct (Unit_val from <? Unit_val to).
  - destruct (convertUnit_outcome value from to) as [[x ->] | ->]; simpl;
      eexists _, _; split; try reflexivity; auto.
  - destruct (convertUnit_outcome value to from) as [[x ->] | ->]; simpl;
      eexists _, _; split; try reflexivity; auto.
Qed.

Lemma convert_and_print_keyword (round_places : Z) (value : D)
    (fromArg toArg : string) :
  matchArgument (D:=D) fromArg = None \/ matchArgument (D:=D) toArg = None ->
  convert_and_print round_to round_places value fromArg toArg =
    Ended [Stdout ("Invalid units provided. Please provide valid units.
" ++ displayHelp)] 1.
Proof.
  unfold convert_and_print, main_convert.
  intros [-> | ->]; [reflexivity|].
  now destruct (matchArgument (D:=D) fromArg).
Qed.

Lemma to_not_from (arg : string) :
  (strcasecmp arg "to" =? 0) = true -> (strcasecmp arg "from" =? 0) = false.
Proof.
  intros H. destruct (strcasecmp arg "from" =? 0) eqn:F; [|reflexivity].
  apply from_not_to in F. congruence.
Qed.

Lemma keyword_unresolved (arg : string) :
  (strcasecmp arg "from" =? 0) = true \/ (strcasecmp arg "to" =? 0) = true ->
  matchArgument (D:=D) arg = None.
Proof.
  intros H. apply keyword_not_unit.
  destruct H as [H | H]; apply Z.eqb_eq in H; auto.
Qed.

(** Runs the keyword loop one turn and splits on the kind of the argument
    it looks at. *)
Ltac scan_turn w :=
  erewrite keyword_loop_S by reflexivity;
  let F := fresh "F" in
  let T := fresh "T" in
  destruct (strcasecmp w "from" =? 0) eqn:F;
    [pose proof (from_not_to _ F) as T
    |destruct (strcasecmp w "to" =? 0) eqn:T].

(** Evaluates the positions once the loop is over. *)
Ltac scan_done :=
  lazy -[convert_and_print String.append displayHelp].

Ltac unresolved :=
  rewrite !convert_and_print_keyword
    by (first [left; apply keyword_unresolved; auto; fail
              |right; apply keyword_unresolved; auto; fail]).

(** "VALUE from A to B" *)
Lemma convert_command_from_to (round_places : Z) (v kf a kt b : string) :
  strcasecmp kf "from" = 0 -> strcasecmp kt "to" = 0 ->
  convert_command atof round_to round_places [v; kf; a; kt; b] 0 =
    if negb (isNumeric v)
    then Ended [Stdout "Invalid value provided. Please provide a valid numeric value.
"] 1
    else convert_and_print round_to round_places (atof v) a b.
Proof.
  intros Hf Ht. apply Z.eqb_eq in Hf, Ht.
  pose proof (to_not_from _ Ht) as Hn.
  unfold convert_command.
  change (Z.of_nat (List.length [v; kf; a; kt; b])) with 5.
  change (negb (0 + 5 =? 5)) with false. cbv iota.
  change (argv_at [v; kf; a; kt; b] 0) with (Some v). cbv iota.
  destruct (isNumeric v); [|reflexivity]. cbn [negb]. cbv zeta.
  change (Z.to_nat (5 - 1 - (0 + 1))) with 3%nat.
  erewrite keyword_loop_S by reflexivity. rewrite Hf.
  scan_turn a;
    (erewrite keyword_loop_S by reflexivity); rewrite Hn, Ht;
    scan_done; fold (convert_and_print round_to);
    try reflexivity; unresolved; reflexivity.
Qed.

(** "VALUE to B from A" *)
Lemma convert_command_to_from (round_places : Z) (v kf a kt b : string) :
  strcasecmp kf "from" = 0 -> strcasecmp kt "to" = 0 ->
  convert_command atof round_to round_places [v; kt; b; kf; a] 0 =
    if negb (isNumeric v)
    then Ended [Stdout "Invalid value provided. Please provide a valid numeric value.
"] 1
    else convert_and_print round_to round_places (atof v) a b.
Proof.
  intros Hf Ht. apply Z.eqb_eq in Hf, Ht.
  pose proof (to_not_from _ Ht) as Hn.
  unfold convert_command.
  change (Z.of_nat (List.length [v; kt; b; kf; a])) with 5.
  change (negb (0 + 5 =? 5)) with false. cbv iota.
  change (argv_at [v; kt; b; kf; a] 0) with (Some v). cbv iota.
  destruct (isNumeric v); [|reflexivity]. cbn [negb]. cbv zeta.
  change (Z.to_nat (5 - 1 - (0 + 1))) with 3%nat.
  erewrite keyword_loop_S by reflexivity. rewrite Hn, Ht.
  scan_turn b;
    (erewrite keyword_loop_S by reflexivity); rewrite Hf;
    scan_done; fold (convert_and_print round_to);
    try reflexivity; unresolved; reflexivity.
Qed.

(** [main_convert] only ever exits with status 1 and reads no row outside
    the table. *)
Lemma main_convert_outcome (round_places : Z) (value : D)
    (fromArg toArg : string) :
  (exists result,
     main_convert round_to round_places value fromArg toArg = Return result)
  \/
  (exists out,
     main_convert round_to round_places value fromArg toArg = Exit out 1).
Proof.
  unfold main_convert.
  destruct (matchArgument (D:=D) fromArg) as [from|]; [|right; eauto].
  destruct (matchArgument (D:=D) toArg) as [to|]; [|right; eauto].
  destruct (Unit_val from <? Unit_val to).
  - destruct (convertUnit_outcome value from to) as [[x ->] | ->]; simpl;
      [left | right]; eauto.
  - destruct (convertUnit_outcome value to from) as [[x ->] | ->]; simpl;
      [left | right]; eauto.
Qed.

Lemma convert_and_print_success (round_places : Z) (value : D)
    (fromArg toArg : string) (events : list (event D)) :
  convert_and_print round_to round_places value fromArg toArg =
    Ended events 0 <->
  exists result from_name to_name,
    main_convert round_to round_places value fromArg toArg = Return result /\
    table_name (matchArgument (D:=D) fromArg) = Some from_name /\
    table_name (matchArgument (D:=D) toArg) = Some to_name /\
    events = [ResultLine (if round_places >=? 0 then round_places else 2)
                value from_name result to_name].
Proof.
  unfold convert_and_print.
  destruct (main_convert_outcome round_places value fromArg toArg)
    as [[result ->] | [out ->]].
  - destruct (table_name (matchArgument (D:=D) fromArg)) as [fn|];
      [destruct (table_name (matchArgument (D:=D) toArg)) as [tn|]|];
      split; try discriminate.
    + intros [= <-]. eauto 10.
    + intros (r & f & t & [= <-] & [= <-] & [= <-] & ->). reflexivity.
    + intros (r & f & t & _ & _ & E & _). discriminate E.
    + intros (r & f & t & _ & E & _). discriminate E.
  - split; [discriminate|]. intros (r & f & t & E & _). discriminate E.
Qed.

(** Enters [convert_command] on five arguments with a numeric value, up to
    the keyword loop. *)
Ltac enter_command w0 w1 w2 w3 w4 :=
  unfold convert_command;
  change (Z.of_nat (List.length [w0; w1; w2; w3; w4])) with 5;
  change (negb (0 + 5 =? 5)) with false; cbv iota;
  change (argv_at [w0; w1; w2; w3; w4] 0) with (Some w0); cbv iota;
  change (Z.to_nat (5 - 1 - (0 + 1))) with 3%nat.

Lemma convert_command_five_outcome (round_places : Z)
    (w0 w1 w2 w3 w4 : string) :
  exists events status,
    convert_command atof round_to round_places [w0; w1; w2; w3; w4] 0 =
      Ended events status /\ (status = 0 \/ status = 1).
Proof.
  enter_command w0 w1 w2 w3 w4.
  destruct (isNumeric w0); cbn [negb]; cbv zeta;
    [|eexists _, _; split; [reflexivity | now right]].
  scan_turn w1; scan_turn w2; scan_turn w3; scan_done;
    first [apply convert_and_print_outcome
          |eexists _, _; split; [reflexivity | now right]].
Qed.

Lemma split_at_optind (argv : list string) (optind : Z) :
  0 <= optind -> optind + 5 = Z.of_nat (List.length argv) ->
  exists pre w0 w1 w2 w3 w4,
    argv = (pre ++ [w0; w1; w2; w3; w4])%list /\
    optind = Z.of_nat (List.length pre).
Proof.
  intros H0 H5.
  exists (firstn (Z.to_nat optind) argv).
  assert (Hl : List.length (skipn (Z.to_nat optind) argv) = 5%nat)
    by (rewrite length_skipn; lia).
  destruct (skipn (Z.to_nat optind) argv)
    as [|w0 [|w1 [|w2 [|w3 [|w4 [|w5 more]]]]]] eqn:E;
    try discriminate Hl.
  exists w0, w1, w2, w3, w4. split.
  - rewrite <- E. symmetry. apply firstn_skipn.
  - rewrite length_firstn. lia.
Qed.

Lemma convert_command_outcome (round_places : Z) (argv : list string)
    (optind : Z) :
  0 <= optind ->
  exists events status,
    convert_command atof round_to round_places argv optind =
      Ended events status /\ (status = 0 \/ status = 1).
Proof.
  intros H0.
  destruct (Z.eq_dec (optind + 5) (Z.of_nat (List.length argv))) as [E | N].
  - destruct (split_at_optind argv H0 E)
      as (pre & w0 & w1 & w2 & w3 & w4 & -> & ->).
    rewrite convert_command_shift. apply convert_command_five_outcome.
  - unfold convert_command. apply Z.eqb_neq in N. rewrite N. simpl negb.
    cbv iota. eexists _, _; split; [reflexivity | now right].
Qed.

Lemma options_loop_outcome (options : list (Z * string)) (round_places : Z) :
  (exists events status,
     options_loop (D:=D) atoi options round_places =
       inl (Ended events status) /\ (status = 0 \/ status = 1)) \/
  (exists places, options_loop (D:=D) atoi options round_places = inr places).
Proof.
  revert round_places.
  induction options as [|[opt optarg] more IH]; intros round_places; simpl.
  - right. eauto.
  - destruct (opt =? 114); [apply IH|].
    destruct (opt =? 104); [left; eauto 6|].
    destruct (opt =? 118); [left; eauto 6|].
    destruct (opt =? 115); left; eauto 6.
Qed.

(** X5: every run of [main] ends with exit status 0 or 1, and none reads
    [argv] or [unit_table] out of bounds, whatever the arguments and the
    options, [optind] being non-negative as [getopt_long] leaves it. *)
Theorem main_outcome (argv : list string) (options : list (Z * string))
    (optind : Z) :
  0 <= optind ->
  exists events status,
    main atof atoi round_to argv options optind = Ended events status /\
    (status = 0 \/ status = 1).
Proof.
  intros H0. unfold main.
  destruct (Z.of_nat (List.length argv) =? 1); [eauto 6|].
  destruct (options_loop_outcome options (-1))
    as [(events & status & -> & Hs) | [places ->]].
  - eauto.
  - now apply convert_command_outcome.
Qed.

(** X6: past the options, [main] succeeds exactly on "VALUE from A to B"
    and on "VALUE to B from A", keywords in any letter case, where VALUE
    passes [isNumeric] and A and B resolve to units that [convertUnit]
    accepts together; it then prints one result line, carrying [atof] of
    VALUE, the table names of A and B in that order, the converted value,
    and [round_places] decimals, or 2 when [round_places] is negative. *)
Theorem convert_command_success (round_places : Z) (pre rest : list string)
    (events : list (event D)) :
  convert_command atof round_to round_places (pre ++ rest)%list
    (Z.of_nat (List.length pre)) = Ended events 0 <->
  exists v kf kt fromArg toArg result from_name to_name,
    (rest = [v; kf; fromArg; kt; toArg] \/
     rest = [v; kt; toArg; kf; fromArg]) /\
    isNumeric v = true /\
    strcasecmp kf "from" = 0 /\ strcasecmp kt "to" = 0 /\
    main_convert round_to round_places (atof v) fromArg toArg =
      Return result /\
    table_name (matchArgument (D:=D) fromArg) = Some from_name /\
    table_name (matchArgument (D:=D) toArg) = Some to_name /\
    events = [ResultLine (if round_places >=? 0 then round_places else 2)
                (atof v) from_name result to_name].
Proof.
  rewrite convert_command_shift. split.
  - destruct (Z.eq_dec (0 + 5) (Z.of_nat (List.length rest))) as [E | N].
    2:{ unfold convert_command. apply Z.eqb_neq in N. rewrite N.
        simpl negb. cbv iota. discriminate. }
    destruct rest as [|w0 [|w1 [|w2 [|w3 [|w4 [|w5 more]]]]]];
      try (exfalso; simpl in E; lia). clear E.
    match goal with |- _ = _ -> ?Q => remember Q as G eqn:HG end.
    enter_command w0 w1 w2 w3 w4.
    destruct (isNumeric w0) eqn:N0; cbn [negb]; cbv zeta;
      [|discriminate].
    scan_turn w1; scan_turn w2; scan_turn w3; scan_done;
      try discriminate; try (unresolved; discriminate);
      intros H; apply convert_and_print_success in H
        as (result & fn & tn & Hm & Hf & Ht & ->);
      subst G.
    + exists w0, w1, w3, w2, w4, result, fn, tn.
      apply Z.eqb_eq in F, T1. auto 10.
    + exists w0, w3, w1, w4, w2, result, fn, tn.
      apply Z.eqb_eq in F1, T. auto 10.
  - intros (v & kf & kt & a & b & result & fn & tn & Hshape & Hv & Hf & Ht
            & Hm & Hfn & Htn & ->).
    assert (Hcp : convert_and_print round_to round_places (atof v) a b =
                  Ended [ResultLine
                           (if round_places >=? 0 then round_places else 2)
                           (atof v) fn result tn] 0)
      by (apply convert_and_print_success; eauto 10).
    destruct Hshape as [-> | ->].
    + rewrite (convert_command_from_to round_places v _ a _ b Hf Ht), Hv.
      exact Hcp.
    + rewrite (convert_command_to_from round_places v _ a _ b Hf Ht), Hv.
      exact Hcp.
Qed.

(** X7: the two clauses may come in either order: "VALUE to B from A" does
    exactly what "VALUE from A to B" does, for any A and B, resolved or
    not. *)
Theorem convert_command_clause_order (round_places : Z) (pre : list string)
    (v kf a kt b : string) :
  strcasecmp kf "from" = 0 -> strcasecmp kt "to" = 0 ->
  convert_command atof round_to round_places
    (pre ++ [v; kt; b; kf; a])%list (Z.of_nat (List.length pre)) =
  convert_command atof round_to round_places
    (pre ++ [v; kf; a; kt; b])%list (Z.of_nat (List.length pre)).
Proof.
  intros Hf Ht. rewrite !convert_command_shift.
  now rewrite (convert_command_from_to round_places v _ a _ b Hf Ht),
              (convert_command_to_from round_places v _ a _ b Hf Ht).
Qed.

(** X4: given the results of [getopt_long], [main] reads of [argv] only
    [argv[optind]] and what follows it: two command lines with arguments
    from which [getopt_long] returns the same options and which carry the
    same words from [optind] on make [main] write the same and end alike,
    however the words in front of [optind] are spelt. *)
Theorem main_positional_arguments (options : list (Z * string))
    (pre pre' rest : list string) :
  Z.of_nat (List.length (pre ++ rest)%list) <> 1 ->
  Z.of_nat (List.length (pre' ++ rest)%list) <> 1 ->
  main atof atoi round_to (pre ++ rest)%list options
    (Z.of_nat (List.length pre)) =
  main atof atoi round_to (pre' ++ rest)%list options
    (Z.of_nat (List.length pre')).
Proof.
  intros H H'. unfold main. apply Z.eqb_neq in H, H'. rewrite H, H'.
  destruct (options_loop atoi options (-1)) as [e | places]; [reflexivity|].
  now rewrite !convert_command_shift.
Qed.

End CommandLine.

(** ** The unit listing *)

Section Listing.

Context {D : Type} {ops : Double D}.

(** Each entry names a unit of the family whose heading stands above it. *)
Lemma entries_registered :
  forallb
    (fun e =>
       match fst e, matchArgument (D:=D) (snd e) with
       | Some t, Some u =>
           match table_at (D:=D) u with
           | Some d => UnitType_val (type d) =? UnitType_val t
           | None => false
           end
       | _, _ => false
       end)
    (listing displayUnits None) = true.
Proof. vm_compute. reflexivity. Qed.

(** Each row is found in the listing, under the heading of its family. *)
Lemma rows_listed :
  forallb
    (fun d : UnitTable D =>
       existsb
         (fun e =>
            match fst e, matchArgument (D:=D) (snd e) with
            | Some t, Some u =>
                (UnitType_val t =? UnitType_val (type d)) &&
                (Unit_val u =? Unit_val (unit d))
            | _, _ => false
            end)
         (listing displayUnits None))
    unit_table = true.
Proof. vm_compute. reflexivity. Qed.

(** X10: the listing of [displayUnits] and [unit_table] agree: every name
    listed is resolved by [matchArgument] to a unit of the family whose
    heading it stands under, every row of the table is listed under the
    heading of its family, and there are as many entries as rows, so that
    no unit is listed twice. *)
Theorem displayUnits_matches_table :
  (forall heading shown,
     In (heading, shown) (listing displayUnits None) ->
     exists u d,
       matchArgument (D:=D) shown = Some u /\ table_at u = Some d /\
       heading = Some (type d)) /\
  (forall d : UnitTable D,
     In d unit_table ->
     exists shown,
       In (Some (type d), shown) (listing displayUnits None) /\
       matchArgument (D:=D) shown = Some (unit d)) /\
  List.length (listing displayUnits None) =
    List.length (unit_table (D:=D)).
Proof.
  split; [|split; [|vm_compute; reflexivity]].
  - intros heading shown Hin.
    pose proof entries_registered as Hc.
    rewrite forallb_forall in Hc. specialize (Hc _ Hin). cbv beta in Hc.
    simpl fst in Hc. simpl snd in Hc.
    destruct heading as [t|]; [|discriminate Hc].
    destruct (matchArgument (D:=D) shown) as [u|] eqn:Hm;
      [|discriminate Hc].
    destruct (table_at (D:=D) u) as [d|] eqn:Hd; [|discriminate Hc].
    exists u, d. split; [reflexivity|]. split; [exact Hd|].
    apply Z.eqb_eq, UnitType_val_inj in Hc. now rewrite Hc.
  - intros d Hin.
    pose proof rows_listed as Hc.
    rewrite forallb_forall in Hc. specialize (Hc _ Hin). cbv beta in Hc.
    apply existsb_exists in Hc as [[heading shown] [Hl Hc]].
    simpl fst in Hc. simpl snd in Hc.
    destruct heading as [t|]; [|discriminate Hc].
    destruct (matchArgument (D:=D) shown) as [u|] eqn:Hm;
      [|discriminate Hc].
    apply andb_true_iff in Hc as [Ht Hu].
    apply Z.eqb_eq, UnitType_val_inj in Ht.
    apply Z.eqb_eq, Unit_val_inj in Hu.
    exists shown. split.
    + rewrite <- Ht. exact Hl.
    + rewrite <- Hu. exact Hm.
Qed.

End Listing.

(** ** The options of [main] *)

Section Options.

Context {D : Type} {ops : Double D}.

Variable atof : string -> D.
Variable atoi : string -> Z.
Variable round_to : Z -> D -> D.

Lemma options_loop_places (rs : list (Z * string)) (round_places : Z) :
  Forall (fun o => fst o = 114) rs ->
  forall more,
    options_loop (D:=D) atoi (rs ++ more)%list round_places =
    options_loop atoi more
      (last (map (fun o => atoi (snd o)) rs) round_places).
Proof.
  intros H. revert round_places.
  induction H as [|[opt optarg] rs Hopt Hrs IH]; intros round_places more.
  - reflexivity.
  - simpl in Hopt. subst opt.
    change (options_loop (D:=D) atoi (rs ++ more)%list (atoi optarg) =
            options_loop atoi more
              (last (atoi optarg :: map (fun o => atoi (snd o)) rs)
                    round_places)).
    rewrite IH. f_equal.
    destruct rs as [|r rs']; [reflexivity|].
    simpl map. generalize (atoi (snd r) :: map (fun o => atoi (snd o)) rs').
    intros l. revert round_places.
    induction l as [|x l IHl]; intros round_places; [reflexivity|].
    destruct l; [reflexivity|]. apply (IHl round_places).
Qed.

Lemma convert_and_print_negative (round_places : Z) (value : D)
    (fromArg toArg : string) :
  round_places < 0 ->
  convert_and_print round_to round_places value fromArg toArg =
  convert_and_print round_to (-1) value fromArg toArg.
Proof.
  intros H. unfold convert_and_print, main_convert.
  assert (E : (round_places >=? 0) = false)
    by (rewrite Z.geb_leb; apply Z.leb_gt; exact H).
  rewrite E. reflexivity.
Qed.

(** X8: the first result of [getopt_long] that is not 'r' decides the run,
    whatever comes after it and whatever the positional arguments are:
    'h', 'v' and 's' print the help, the version or the unit list and end
    with status 0; any other result ends with status 1 and a hint on
    stderr, which follows the message [getopt_long] has written there
    itself when that result is '?'. *)
Theorem main_first_option (argv : list string) (rs more : list (Z * string))
    (opt : Z) (optarg : string) (optind : Z) :
  Z.of_nat (List.length argv) <> 1 ->
  Forall (fun o => fst o = 114) rs -> opt <> 114 ->
  main atof atoi round_to argv (rs ++ (opt, optarg) :: more)%list optind =
    if opt =? 104 then Ended [Stdout displayHelp] 0
    else if opt =? 118 then Ended [Stdout displayVersion] 0
    else if opt =? 115 then Ended [Stdout (concat "" displayUnits)] 0
    else Ended (getopt_long_writes opt ++
                [Stderr "Use '-h, --help' for help.
"])%list 1.
Proof.
  intros Hargc Hrs Hopt. unfold main.
  apply Z.eqb_neq in Hargc. rewrite Hargc.
  rewrite (options_loop_places (-1) Hrs). simpl options_loop.
  apply Z.eqb_neq in Hopt. rewrite Hopt.
  destruct (opt =? 104); [reflexivity|].
  destruct (opt =? 118); [reflexivity|].
  destruct (opt =? 115); reflexivity.
Qed.

(** X9: when [-r] is the only option given, however many times, the
    conversion runs with the number of places of its last occurrence; and a
    negative number of places does what no [-r] at all does: no rounding,
    two decimals. *)
Theorem main_round_places (argv : list string) (rs : list (Z * string))
    (optind : Z) :
  Z.of_nat (List.length argv) <> 1 ->
  Forall (fun o => fst o = 114) rs ->
  main atof atoi round_to argv rs optind =
    convert_command atof round_to
      (last (map (fun o => atoi (snd o)) rs) (-1)) argv optind /\
  forall round_places,
    round_places < 0 ->
    convert_command atof round_to round_places argv optind =
    convert_command atof round_to (-1) argv optind.
Proof.
  intros Hargc Hrs. split.
  - unfold main. apply Z.eqb_neq in Hargc. rewrite Hargc.
    rewrite <- (app_nil_r rs) at 1.
    rewrite (options_loop_places (-1) Hrs). reflexivity.
  - intros round_places Hneg. unfold convert_command.
    destruct (negb (optind + 5 =? Z.of_nat (List.length argv)));
      [reflexivity|].
    destruct (argv_at argv optind) as [arg0|]; [|reflexivity].
    destruct (negb (isNumeric arg0)); [reflexivity|].
    cbv zeta.
    destruct (keyword_loop argv _ (optind + 1) (-1) (-1)) as [[fp tp]|];
      [|reflexivity].
    destruct ((fp =? -1) || (tp =? -1)); [reflexivity|].
    destruct (argv_at argv fp) as [fromArg|]; [|reflexivity].
    destruct (argv_at argv tp) as [toArg|]; [|reflexivity].
    now apply convert_and_print_negative.
Qed.

End Options.

(** ** More on the conversion engine *)

Section EngineMore.

Context {D : Type} {ops : Double D}.

Lemma convertUnit_differ (value : D) (from to : Unit) (f t : UnitTable D) :
  table_at from = Some f -> table_at to = Some t -> type f <> type t ->
  convertUnit value from to = IncompatibleFamilies.
Proof.
  intros Hf Ht Hty.
  assert (Hne : from <> to) by (intros ->; apply Hty; congruence).
  assert (Hgo : convertUnit value from to = at_default value from to).
  { destruct (UnitType_val (type f) =? 0) eqn:E.
    - apply Z.eqb_eq in E. apply (UnitType_val_inj _ TEMPERATURE) in E.
      apply convertUnit_falls_through with (f := f) (t := t);
        try assumption; congruence.
    - apply convertUnit_not_temperature with (f := f); try assumption.
      intros T. rewrite T in E. discriminate E. }
  rewrite Hgo, (at_default_spec value _ _ Hf Ht).
  destruct (Z.eqb_spec (UnitType_val (type f)) (UnitType_val (type t)))
    as [E | _]; [|reflexivity].
  elim Hty. exact (UnitType_val_inj _ _ E).
Qed.

Lemma convertUnit_returns_iff (value : D) (from to : Unit)
    (f t : UnitTable D) :
  table_at from = Some f -> table_at to = Some t ->
  (exists x, convertUnit value from to = Return x) <-> type f = type t.
Proof.
  intros Hf Ht. split.
  - intros [x Hx].
    destruct (Z.eq_dec (UnitType_val (type f)) (UnitType_val (type t)))
      as [E | N]; [exact (UnitType_val_inj _ _ E)|].
    rewrite (@convertUnit_differ value from to f t Hf Ht) in Hx;
      [discriminate Hx|].
    congruence.
  - intros Hty.
    apply convertUnit_same_family with (f := f) (t := t);
      try assumption; now apply table_at_registered.
Qed.

Variable round_to : Z -> D -> D.

(** X11: lines 189-211 of [main] yield a value exactly when both arguments
    name units of one and the same family; in every other case the program
    ends there with exit status 1, and the table is never read out of
    bounds. *)
Theorem main_convert_returns (round_places : Z) (value : D)
    (fromArg toArg : string) :
  ((exists result,
      main_convert round_to round_places value fromArg toArg =
        Return result) <->
   (exists A B a b,
      matchArgument (D:=D) fromArg = Some A /\
      matchArgument (D:=D) toArg = Some B /\
      table_at A = Some a /\ table_at B = Some b /\ type a = type b)) /\
  (forall out status,
     main_convert round_to round_places value fromArg toArg =
       Exit out status -> status = 1) /\
  main_convert round_to round_places value fromArg toArg <> OutOfBounds.
Proof.
  unfold main_convert.
  destruct (matchArgument (D:=D) fromArg) as [A|].
  2:{ split; [|split; [intros out status [= _ <-]; reflexivity
                      |discriminate]].
      split; [intros [r Hr]; discriminate Hr
             |intros (A & B & a & b & E & _); discriminate E]. }
  destruct (matchArgument (D:=D) toArg) as [B|].
  2:{ split; [|split; [intros out status [= _ <-]; reflexivity
                      |discriminate]].
      split; [intros [r Hr]; discriminate Hr
             |intros (A' & B & a & b & _ & E & _); discriminate E]. }
  destruct (table_at_total (D:=D) A) as [a [Ha _]].
  destruct (table_at_total (D:=D) B) as [b [Hb _]].
  assert (Hcore :
    forall from to f t, table_at (D:=D) from = Some f ->
      table_at (D:=D) to = Some t ->
      ((exists result,
          bind (convertUnit value from to)
            (fun result =>
               Return (if round_places >=? 0
                       then round_to round_places result else result)) =
          Return result) <-> type f = type t) /\
      (forall out status,
         bind (convertUnit value from to)
           (fun result =>
              Return (if round_places >=? 0
                      then round_to round_places result else result)) =
         Exit out status -> status = 1) /\
      bind (convertUnit value from to)
        (fun result =>
           Return (if round_places >=? 0
                   then round_to round_places result else result)) <>
      OutOfBounds).
  { intros from to f t Hf Ht.
    pose proof (@convertUnit_returns_iff value from to f t Hf Ht) as Hiff.
    destruct (convertUnit_outcome value from to) as [[x Hx] | Hx];
      rewrite Hx in *; simpl.
    - split; [|split; [discriminate | discriminate]].
      split; [intros _; apply Hiff; eauto | eauto].
    - split; [|split; [intros out status [= _ <-]; reflexivity
                      |discriminate]].
      split; [intros [r Hr]; discriminate Hr|].
      intros Hty. apply Hiff in Hty as [x Hx']. discriminate Hx'. }
  destruct (Unit_val A <? Unit_val B).
  - destruct (Hcore A B a b Ha Hb) as (Hiff & Hex & Hoob).
    split; [|split; assumption].
    rewrite Hiff. split.
    + intros Hty. exists A, B, a, b. auto.
    + intros (A' & B' & a' & b' & [= <-] & [= <-] & Ha' & Hb' & Hty).
      congruence.
  - destruct (Hcore B A b a Hb Ha) as (Hiff & Hex & Hoob).
    split; [|split; assumption].
    rewrite Hiff. split.
    + intros Hty. exists A, B, a, b. auto.
    + intros (A' & B' & a' & b' & [= <-] & [= <-] & Ha' & Hb' & Hty).
      congruence.
Qed.

End EngineMore.

(** ** The scale ratios in binary64 *)

Lemma scale_ratios_checked :
  forallb
    (fun f : UnitTable float =>
       forallb
         (fun t : UnitTable float =>
            if (UnitType_val (type f) =? UnitType_val (type t)) &&
               negb (UnitType_val (type f) =? 0)
            then
              is_finite
                (PrimFloat.div (conversion_factor f) (conversion_factor t))
              && PrimFloat.ltb 0
                   (PrimFloat.div (conversion_factor f)
                                  (conversion_factor t))
            else true)
         unit_table)
    unit_table = true.
Proof. vm_compute. reflexivity. Qed.

(** X14: in binary64 the ratio [convertUnit] multiplies by, the factor of
    one row over the factor of another row of the same family outside
    TEMPERATURE, is always a finite number above zero: the table itself
    brings in no NaN, no infinity, no zero and no sign change. *)
Theorem scale_ratio_binary64 (f t : UnitTable float) :
  In f unit_table -> In t unit_table ->
  type f = type t -> type f <> TEMPERATURE ->
  is_finite (PrimFloat.div (conversion_factor f) (conversion_factor t)) =
    true /\
  PrimFloat.ltb 0
    (PrimFloat.div (conversion_factor f) (conversion_factor t)) = true.
Proof.
  intros Hf Ht Hty Hnt.
  pose proof scale_ratios_checked as Hc.
  rewrite forallb_forall in Hc. specialize (Hc _ Hf). cbv beta in Hc.
  rewrite forallb_forall in Hc. specialize (Hc _ Ht). cbv beta in Hc.
  rewrite Hty, Z.eqb_refl in Hc.
  assert (E : (UnitType_val (type t) =? 0) = false).
  { apply Z.eqb_neq. intros E. apply Hnt. rewrite Hty.
    exact (UnitType_val_inj _ TEMPERATURE E). }
  rewrite E in Hc. simpl negb in Hc. cbv iota in Hc.
  now apply andb_true_iff in Hc.
Qed.

(** ** The added theorems at work on concrete inputs *)

Lemma matchArgument_same_case_kilometers :
  matchArgument (D:=float) "KiloMeters" =
  matchArgument (D:=float) "kilometers".
Proof. apply matchArgument_same_case. reflexivity. Defined.

Lemma matchArgument_name_feet :
  exists d : UnitTable float,
    table_at FEET = Some d /\ c_str (name d) = map tolower (c_str "FEET").
Proof. apply matchArgument_name. reflexivity. Defined.

Lemma main_outcome_meters_feet :
  exists events status,
    main (fun _ => 1%float) (fun _ => 3) (fun _ x => x)
      ["unicon"; "1"; "from"; "meters"; "to"; "feet"] [] 1 =
      Ended events status /\ (status = 0 \/ status = 1).
Proof. apply main_outcome. lia. Defined.

Lemma convert_command_clause_order_meters_feet :
  convert_command (fun _ => 1%float) (fun _ x => x) (-1)
    ["unicon"; "1"; "to"; "feet"; "from"; "meters"] 1 =
  convert_command (fun _ => 1%float) (fun _ x => x) (-1)
    ["unicon"; "1"; "from"; "meters"; "to"; "feet"] 1.
Proof.
  exact (@convert_command_clause_order float ieee (fun _ => 1%float)
           (fun _ x => x) (-1) ["unicon"] "1" "from" "meters" "to" "feet"
           eq_refl eq_refl).
Defined.

Lemma main_first_option_help :
  main (fun _ => 1%float) (fun _ => 3) (fun _ x => x)
    ["unicon"; "-r"; "3"; "-h"; "1"; "from"; "meters"; "to"; "feet"]
    [(114, "3"); (104, ""); (118, "")] 4 =
  Ended [Stdout displayHelp] 0.
Proof.
  apply (@main_first_option float ieee (fun _ => 1%float) (fun _ => 3)
           (fun _ x => x) _ [(114, "3")] [(118, "")] 104 "" 4).
  - discriminate.
  - repeat constructor.
  - discriminate.
Defined.

Lemma main_round_places_twice :
  main (fun _ => 1%float) (fun s => if String.eqb s "1" then 1 else 3)
    (fun _ x => x)
    ["unicon"; "-r"; "1"; "-r"; "3"; "1"; "from"; "meters"; "to"; "feet"]
    [(114, "1"); (114, "3")] 5 =
  convert_command (fun _ => 1%float) (fun _ x => x) 3
    ["unicon"; "-r"; "1"; "-r"; "3"; "1"; "from"; "meters"; "to"; "feet"] 5.
Proof.
  apply (@main_round_places float ieee (fun _ => 1%float)
           (fun s => if String.eqb s "1" then 1 else 3) (fun _ x => x)).
  - discriminate.
  - repeat constructor.
Defined.

Lemma scale_ratio_binary64_pounds_grams :
  is_finite (PrimFloat.div (dlit 0.00220462) (dlit 1.0)) = true /\
  PrimFloat.ltb 0 (PrimFloat.div (dlit 0.00220462) (dlit 1.0)) = true.
Proof.
  apply (@scale_ratio_binary64
           (row MASS POUNDS "pounds" (dlit 0.00220462))
           (row MASS GRAMS "grams" (dlit 1.0))).
  - apply (nth_error_In _ 27%nat). reflexivity.
  - apply (nth_error_In _ 20%nat). reflexivity.
  - reflexivity.
  - discriminate.
Defined.

Lemma convert_command_success_meters_feet :
  convert_command (fun _ => 1%float) (fun _ x => x) (-1)
    ["unicon"; "1"; "from"; "meters"; "to"; "feet"] 1 =
  Ended [ResultLine 2 1%float "meters"
           (PrimFloat.mul 1 (PrimFloat.div 1 3.28084)) "feet"] 0.
Proof.
  apply (proj2 (@convert_command_success float ieee (fun _ => 1%float)
                  (fun _ x => x) (-1) ["unicon"]
                  ["1"; "from"; "meters"; "to"; "feet"] _)).
  exists "1", "from", "to", "meters", "feet",
         (PrimFloat.mul 1 (PrimFloat.div 1 3.28084)), "meters", "feet".
  repeat split; try reflexivity. left. reflexivity.
Defined.

(** ** Letter case on the command line *)

Section LetterCase.

Context {D : Type} {ops : Double D}.

Variable atof : string -> D.
Variable atoi : string -> Z.
Variable round_to : Z -> D -> D.

Lemma argv_at_same_case (argv argv' : list string) (i : Z) :
  Forall2 (fun x y => map tolower (c_str x) = map tolower (c_str y))
    argv argv' ->
  match argv_at argv i, argv_at argv' i with
  | Some x, Some y => map tolower (c_str x) = map tolower (c_str y)
  | None, None => True
  | _, _ => False
  end.
Proof.
  intros H. unfold argv_at. destruct (i <? 0); [exact I|].
  generalize (Z.to_nat i). clear i.
  induction H as [|x y l l' Hxy Hl IH]; intros [|n]; simpl; auto.
  apply IH.
Qed.

Lemma keyword_loop_same_case (argv argv' : list string) (n : nat)
    (i fp tp : Z) :
  Forall2 (fun x y => map tolower (c_str x) = map tolower (c_str y))
    argv argv' ->
  keyword_loop argv n i fp tp = keyword_loop argv' n i fp tp.
Proof.
  intros H. revert i fp tp.
  induction n as [|n IH]; intros i fp tp; simpl; [reflexivity|].
  pose proof (argv_at_same_case i H) as Hi.
  destruct (argv_at argv i) as [x|], (argv_at argv' i) as [y|];
    try contradiction; [|reflexivity].
  rewrite (strcasecmp_same_case x y "from" Hi),
          (strcasecmp_same_case x y "to" Hi).
  destruct (strcasecmp y "from" =? 0); [apply IH|].
  destruct (strcasecmp y "to" =? 0); apply IH.
Qed.

Lemma convert_and_print_same_case (round_places : Z) (value : D)
    (a a' b b' : string) :
  map tolower (c_str a) = map tolower (c_str a') ->
  map tolower (c_str b) = map tolower (c_str b') ->
  convert_and_print round_to round_places value a b =
  convert_and_print round_to round_places value a' b'.
Proof.
  intros Ha Hb. unfold convert_and_print, main_convert, matchArgument.
  now rewrite (matchArgument_from_same_case unit_table a a' Ha),
              (matchArgument_from_same_case unit_table b b' Hb).
Qed.

Lemma convert_command_letter_case (round_places : Z)
    (argv argv' : list string) (optind : Z) :
  Forall2 (fun x y => map tolower (c_str x) = map tolower (c_str y))
    argv argv' ->
  argv_at argv optind = argv_at argv' optind ->
  convert_command atof round_to round_places argv optind =
  convert_command atof round_to round_places argv' optind.
Proof.
  intros H Hv. unfold convert_command.
  rewrite <- (Forall2_length H), <- Hv.
  destruct (negb (optind + 5 =? Z.of_nat (List.length argv)));
    [reflexivity|].
  destruct (argv_at argv optind) as [arg0|]; [|reflexivity].
  destruct (negb (isNumeric arg0)); [reflexivity|]. cbv zeta.
  rewrite <- (keyword_loop_same_case _ _ _ _ H).
  destruct (keyword_loop argv _ (optind + 1) (-1) (-1)) as [[fp tp]|];
    [|reflexivity].
  destruct ((fp =? -1) || (tp =? -1)); [reflexivity|].
  pose proof (argv_at_same_case fp H) as Hf.
  pose proof (argv_at_same_case tp H) as Ht.
  destruct (argv_at argv fp) as [a|], (argv_at argv' fp) as [a'|];
    try contradiction; [|reflexivity].
  destruct (argv_at argv tp) as [b|], (argv_at argv' tp) as [b'|];
    try contradiction; [|reflexivity].
  now apply convert_and_print_same_case.
Qed.

(** X15: the letter case of the keywords and of the unit names does not
    matter. Two command lines with the same words in front of [optind],
    from which [getopt_long] returns the same options, and the same value
    argument, whose positional arguments agree one by one up to letter
    case, make [main] write the same and end with the same status. The
    options themselves are [getopt_long]'s to read, and are not covered. *)
Theorem main_same_case (options : list (Z * string))
    (pre rest rest' : list string) :
  Forall2 (fun x y => map tolower (c_str x) = map tolower (c_str y))
    rest rest' ->
  argv_at rest 0 = argv_at rest' 0 ->
  main atof atoi round_to (pre ++ rest)%list options
    (Z.of_nat (List.length pre)) =
  main atof atoi round_to (pre ++ rest')%list options
    (Z.of_nat (List.length pre)).
Proof.
  intros H Hv. unfold main.
  rewrite !length_app, <- (Forall2_length H).
  destruct (Z.of_nat (List.length pre + List.length rest) =? 1);
    [reflexivity|].
  destruct (options_loop atoi options (-1)) as [e | places]; [reflexivity|].
  rewrite !convert_command_shift.
  now apply convert_command_letter_case.
Qed.

End LetterCase.

Lemma main_same_case_meters_feet :
  main (fun _ => 1%float) (fun _ => 3) (fun _ x => x)
    ["unicon"; "-r"; "3"; "1"; "FROM"; "Meters"; "To"; "FEET"]
    [(114, "3")] 3 =
  main (fun _ => 1%float) (fun _ => 3) (fun _ x => x)
    ["unicon"; "-r"; "3"; "1"; "from"; "meters"; "to"; "feet"]
    [(114, "3")] 3.
Proof.
  apply (@main_same_case float ieee (fun _ => 1%float) (fun _ => 3)
           (fun _ x => x) [(114, "3")] ["unicon"; "-r"; "3"]
           ["1"; "FROM"; "Meters"; "To"; "FEET"]
           ["1"; "from"; "meters"; "to"; "feet"]).
  - repeat constructor.
  - reflexivity.
Defined.

Lemma main_positional_arguments_round :
  main (fun _ => 1%float) (fun _ => 3) (fun _ x => x)
    ["unicon"; "-r"; "3"; "1"; "from"; "meters"; "to"; "feet"]
    [(114, "3")] 3 =
  main (fun _ => 1%float) (fun _ => 3) (fun _ x => x)
    ["unicon"; "--round=3"; "1"; "from"; "meters"; "to"; "feet"]
    [(114, "3")] 2.
Proof.
  apply (@main_positional_arguments float ieee (fun _ => 1%float)
           (fun _ => 3) (fun _ x => x) [(114, "3")]
           ["unicon"; "-r"; "3"] ["unicon"; "--round=3"]
           ["1"; "from"; "meters"; "to"; "feet"]).
  - discriminate.
  - discriminate.
Defined.

(** ** Accuracy of the conversion in binary64 *)

Unset Implicit Arguments.

Lemma table_at_type (A : Unit) (a : UnitTable float) (a' : UnitTable Q) :
  table_at A = Some a -> table_at A = Some a' -> type a' = type a.
Proof. destruct A; intros [= <-] [= <-]; reflexivity. Qed.

(** Each scale ratio, as binary64 computes it from the two stored factors,
    against the quotient of the two decimal literals. *)
Lemma scale_ratios_accurate :
  forallb
    (fun i : nat =>
       forallb
         (fun j : nat =>
            match nth_error (unit_table (D:=float)) i,
                  nth_error (unit_table (D:=float)) j,
                  nth_error (unit_table (D:=Q)) i,
                  nth_error (unit_table (D:=Q)) j with
            | Some a, Some b, Some a', Some b' =>
                if (UnitType_val (type a) =? UnitType_val (type b)) &&
                   negb (UnitType_val (type a) =? 0)
                then
                  accurate_within magnitude_cap
                    (1e-15 * Qabs (conversion_factor a' / conversion_factor b'))
                    0 underflow_budget
                    [MulC (PrimFloat.div (conversion_factor a)
                                         (conversion_factor b))]
                    (conversion_factor a' / conversion_factor b') 0
                else true
            | _, _, _, _ => true
            end)
         (seq 0 36))
    (seq 0 36) = true.
Proof. vm_compute. reflexivity. Qed.

(** Each temperature formula, as binary64 computes it, against its exact
    slope and offset. *)
Lemma temperature_formulas_accurate :
  forallb
    (fun c : Unit * Unit * list cop * Q * Q =>
       let '(_, _, ops, sx, ox) := c in
       accurate_within magnitude_cap 1e-15 9e-13 underflow_budget ops sx ox)
    temperature_chains = true.
Proof. vm_compute. reflexivity. Qed.

Lemma Return_inj (A : Type) (x y : A) : Return x = Return y -> x = y.
Proof. intros H. now injection H. Qed.

Lemma temperature_accuracy (value : float) (v x : Q) (A B : Unit) :
  (A = CELSIUS \/ A = FAHRENHEIT \/ A = KELVIN) ->
  (B = CELSIUS \/ B = FAHRENHEIT \/ B = KELVIN) ->
  A <> B ->
  float_val value = Some v -> (Qabs v <= 1e280)%Q ->
  convertUnit (D:=Q) v A B = Return x ->
  exists (y : float) (w : Q),
    convertUnit value A B = Return y /\ float_val y = Some w /\
    (Qabs (w - x) <= 1e-15 * Qabs v + 1e-12)%Q.
Proof.
  intros HA HB Hne Hv Hb Hx.
  pose proof temperature_formulas_accurate as Hc.
  rewrite forallb_forall in Hc.
  assert (Hrun : forall (F T : Unit) (ops : list cop) (sx ox : Q),
            In (F, T, ops, sx, ox) temperature_chains ->
            exists w : Q,
              float_val (run_ops ops value) = Some w /\
              (Qabs (w - (sx * v + ox)) <= 1e-15 * Qabs v + 1e-12)%Q).
  { intros F T ops sx ox Hin. specialize (Hc _ Hin). cbv beta iota in Hc.
    exact (accurate_within_val 1e-15 9e-13 1e-12 sx ox ops value v
             (proj2 (proj2 (proj2 round_trip_parameters))) Hc Hv Hb). }
  clear Hc.
  destruct (temperature_formulas (D:=Q) v) as (F1 & F2 & F3 & F4 & F5 & F6).
  destruct HA as [-> | [-> | ->]]; destruct HB as [-> | [-> | ->]];
    try (now elim Hne);
    [rewrite F1 in Hx | rewrite F2 in Hx | rewrite F3 in Hx
    |rewrite F4 in Hx | rewrite F5 in Hx | rewrite F6 in Hx];
    apply Return_inj in Hx; subst x;
    cbv [dadd dsub dmul ddiv dlit rational];
    [destruct (Hrun _ _ _ _ _ (or_introl eq_refl)) as (w & Hw & Hbw)
    |destruct (Hrun _ _ _ _ _ (or_intror (or_introl eq_refl)))
       as (w & Hw & Hbw)
    |destruct (Hrun _ _ _ _ _ (or_intror (or_intror (or_introl eq_refl))))
       as (w & Hw & Hbw)
    |destruct (Hrun _ _ _ _ _
                 (or_intror (or_intror (or_intror (or_introl eq_refl)))))
       as (w & Hw & Hbw)
    |destruct (Hrun _ _ _ _ _
                 (or_intror (or_intror (or_intror (or_intror
                    (or_introl eq_refl))))))
       as (w & Hw & Hbw)
    |destruct (Hrun _ _ _ _ _
                 (or_intror (or_intror (or_intror (or_intror (or_intror
                    (or_introl eq_refl)))))))
       as (w & Hw & Hbw)];
    (match type of Hw with float_val ?y = _ => exists y, w end);
    (split; [reflexivity|]); (split; [exact Hw|]);
    match goal with
    | |- (Qabs (_ - ?f) <= _)%Q =>
        match type of Hbw with
        | (Qabs (_ - ?g) <= _)%Q => setoid_replace f with g by field
        end
    end;
    exact Hbw.
Qed.

Lemma scale_accuracy (value : float) (v x : Q) (A B : Unit)
    (a b : UnitTable float) (a' b' : UnitTable Q) :
  table_at A = Some a -> table_at B = Some b ->
  table_at A = Some a' -> table_at B = Some b' ->
  A <> B -> type a = type b -> type a <> TEMPERATURE ->
  float_val value = Some v -> (Qabs v <= 1e280)%Q ->
  convertUnit (D:=Q) v A B = Return x ->
  exists (y : float) (w : Q),
    convertUnit value A B = Return y /\ float_val y = Some w /\
    (Qabs (w - x) <= 1e-15 * Qabs x + 1e-300)%Q.
Proof.
  intros Ha Hb Ha' Hb' Hne Hty Ta Hv Hbound Hx.
  assert (Hty' : type a' = type b')
    by (rewrite (table_at_type A a a' Ha Ha'), (table_at_type B b b' Hb Hb');
        exact Hty).
  assert (Ta' : type a' <> TEMPERATURE)
    by (rewrite (table_at_type A a a' Ha Ha'); exact Ta).
  rewrite (convertUnit_default_ratio v Ha' Hb' Hne Hty' Ta') in Hx.
  apply Return_inj in Hx. subst x.
  cbv [dmul ddiv rational].
  set (sx := (conversion_factor a' / conversion_factor b')%Q).
  pose proof scale_ratios_accurate as Hc.
  rewrite forallb_forall in Hc.
  assert (Hin : forall (U : Unit) (u : UnitTable float),
            table_at U = Some u -> In (Z.to_nat (Unit_val U)) (seq 0 36)).
  { intros U u Hu.
    assert (H : (Z.to_nat (Unit_val U) <
                 List.length (unit_table (D:=float)))%nat)
      by (apply nth_error_Some; unfold table_at in Hu; rewrite Hu;
          discriminate).
    rewrite unit_table_length in H. apply in_seq. lia. }
  specialize (Hc _ (Hin A a Ha)). cbv beta in Hc.
  rewrite forallb_forall in Hc. specialize (Hc _ (Hin B b Hb)).
  cbv beta in Hc. unfold table_at in Ha, Hb, Ha', Hb'.
  rewrite Ha, Hb, Ha', Hb' in Hc.
  rewrite Hty, Z.eqb_refl in Hc.
  assert (E : (UnitType_val (type b) =? 0) = false).
  { apply Z.eqb_neq. intros E. apply Ta. rewrite Hty.
    exact (UnitType_val_inj _ TEMPERATURE E). }
  rewrite E in Hc. simpl negb in Hc. cbv iota in Hc. fold sx in Hc.
  destruct (accurate_within_val (1e-15 * Qabs sx) 0 1e-300 sx 0 _ value v
              (proj1 (proj2 (proj2 round_trip_parameters))) Hc Hv Hbound)
    as (w & Hw & Hbw).
  exists (run_ops
            [MulC (PrimFloat.div (conversion_factor a) (conversion_factor b))]
            value), w.
  split; [|split; [exact Hw|]].
  - fold (table_at A) in Ha. fold (table_at B) in Hb.
    rewrite (convertUnit_default_ratio value Ha Hb Hne Hty Ta). reflexivity.
  - setoid_replace (v * sx)%Q with (sx * v + 0)%Q by ring.
    setoid_replace (Qabs (sx * v + 0)) with (Qabs sx * Qabs v)%Q
      by (rewrite <- Qabs_Qmult; apply Qabs_wd; ring).
    setoid_replace (1e-15 * (Qabs sx * Qabs v))%Q
      with (1e-15 * Qabs sx * Qabs v)%Q by ring.
    exact Hbw.
Qed.

(** X16: binary64 [convertUnit] against the exact formula. For a finite
    input of magnitude up to 1e280 and two units between which the same
    code, run on the rationals with the literals of the source read
    exactly, returns [x], the binary64 run returns a finite value too: in
    the ratio families within [1e-15 * |x|] of [x], up to 1e-300; for the
    temperature formulas within [1e-15 * |v|] of [x], up to 1e-12. *)
Theorem convertUnit_binary64_accuracy (value : float) (v x : Q) (A B : Unit)
    (a : UnitTable float) :
  registered A a ->
  float_val value = Some v -> (Qabs v <= 1e280)%Q ->
  convertUnit (D:=Q) v A B = Return x ->
  exists (y : float) (w : Q),
    convertUnit value A B = Return y /\ float_val y = Some w /\
    (Qabs (w - x) <=
       1e-15 * accuracy_scale (type a) v x + round_trip_floor (type a))%Q.
Proof.
  intros Ra Hv Hb Hx.
  pose proof (registered_table_at Ra) as Ha.
  destruct (table_at_total (D:=float) B) as [b [Hb' _]].
  destruct (table_at_total (D:=Q) A) as [a' [Ha' _]].
  destruct (table_at_total (D:=Q) B) as [b' [Hb'' _]].
  destruct (Z.eq_dec (Unit_val A) (Unit_val B)) as [E | N].
  - apply Unit_val_inj in E. subst B.
    rewrite convertUnit_same_unit in Hx. apply Return_inj in Hx. subst x.
    exists value, v. split; [apply convertUnit_same_unit|].
    split; [exact Hv|].
    setoid_replace (v - v)%Q with 0%Q by ring.
    assert (H1 : (0 <= 1e-15 * accuracy_scale (type a) v v)%Q).
    { apply Qmult_le_0_compat; [discriminate|].
      destruct (type a); apply Qabs_nonneg. }
    assert (H2 : (0 <= round_trip_floor (type a))%Q)
      by (destruct (type a); discriminate).
    change (Qabs 0) with 0%Q.
    revert H1 H2.
    generalize (1e-15 * accuracy_scale (type a) v v)%Q
               (round_trip_floor (type a)).
    intros p f H1 H2. Lqa.lra.
  - assert (Hne : A <> B) by congruence.
    assert (Hty' : type a' = type b')
      by (apply (convertUnit_returns_iff v A B Ha' Hb''); eauto).
    assert (Hty : type a = type b)
      by (rewrite <- (table_at_type A a a' Ha Ha'),
                  <- (table_at_type B b b' Hb' Hb''); exact Hty').
    destruct (UnitType_val (type a) =? 0) eqn:T.
    + apply Z.eqb_eq, (UnitType_val_inj _ TEMPERATURE) in T.
      rewrite T. simpl accuracy_scale. simpl round_trip_floor.
      apply temperature_accuracy; trivial.
      * apply (temperature_units _ Ha), T.
      * apply (temperature_units _ Hb'). congruence.
    + assert (Ta : type a <> TEMPERATURE)
        by (intros T'; rewrite T' in T; discriminate T).
      replace (round_trip_floor (type a)) with 1e-300%Q
        by (destruct (type a); [now elim Ta | reflexivity ..]).
      replace (accuracy_scale (type a) v x) with (Qabs x)
        by (destruct (type a); [now elim Ta | reflexivity ..]).
      exact (scale_accuracy value v x A B a b a' b' Ha Hb' Ha' Hb'' Hne Hty
               Ta Hv Hb Hx).
Qed.

Set Implicit Arguments.

(** 5 pounds to grams in binary64, against 5 * (0.00220462 / 1.0). *)
Lemma convertUnit_binary64_accuracy_pounds_grams :
  exists (y : float) (w : Q),
    convertUnit 5%float POUNDS GRAMS = Return y /\ float_val y = Some w /\
    (Qabs (w - 5 * (0.00220462 / 1.0)) <=
       1e-15 * accuracy_scale MASS 5 (5 * (0.00220462 / 1.0)) +
       round_trip_floor MASS)%Q.
Proof.
  apply (@convertUnit_binary64_accuracy 5%float 5
           (5 * (0.00220462 / 1.0))%Q POUNDS GRAMS
           (row MASS POUNDS "pounds" (dlit 0.00220462))).
  - row_at 27%nat.
  - vm_compute. reflexivity.
  - vm_compute. discriminate.
  - reflexivity.
Defined.
